(** * jaxns special priors and the named-tuple serialisation bridge

    A shallow embedding of [jaxns/framework/special_priors.py] and
    [jaxns/internals/namedtuple_utils.py].

    Floating-point numbers are idealised as real numbers ([R]), with
    [jnp.log] and [jnp.exp] read as [ln] and [exp].  An array is the list of
    its entries along the leading axis; where trailing axes matter an entry
    is itself an array, a function from the indices of those axes to [R].
    Functions of TensorFlow Probability, JAX and NumPy that the sources call
    are parameters of the definitions that use them, or are modelled after
    their documentation where a definition needs their result.  Python
    exceptions are values of [exn], carried by the [result] monad. *)

From Stdlib Require Import String Ascii.
From Stdlib Require Import Reals Lra Lia ZArith Bool List Sorted.
From Stdlib Require Import FunctionalExtensionality.
From Stdlib Require SpecFloat.
Import ListNotations.

Open Scope R_scope.

(** ** Exceptions *)

Inductive exn : Type :=
| ValueError (msg : string)
| NotImplementedError
| ShapeError
| KeyError (key : string)
| ImportError (name : string)
| AttributeError (name : string)
| TypeError
| Unmodelled.   (* the source leaves the embedded fragment of Python *)

Inductive result (A : Type) : Type :=
| Ok (a : A)
| Raise (e : exn).

Arguments Ok {A} a.
Arguments Raise {A} e.

Definition bind {A B : Type} (m : result A) (f : A -> result B) : result B :=
  match m with
  | Ok a => f a
  | Raise e => Raise e
  end.

Notation "x <- m ;; k" := (bind m (fun x => k))
  (at level 61, m at next level, right associativity).
Notation "' p <- m ;; k" := (bind m (fun x => match x with p => k end))
  (at level 61, p pattern, m at next level, right associativity).

(** ** The array operations of [jax.numpy] used by the priors *)

Module Jnp.

(** [jnp.arange(n)] for a Python integer [n] (empty when [n <= 0]). *)
Definition arange (n : Z) : list R :=
  map (fun i => INR i) (seq 0 (Z.to_nat n)).

Section Elementwise.
Context {A B C : Type}.

(** Elementwise binary operation on two arrays that have the same length
    along the leading axis. *)
Fixpoint map2 (f : A -> B -> C) (xs : list A) (ys : list B) : list C :=
  match xs, ys with
  | x :: xs', y :: ys' => f x y :: map2 f xs' ys'
  | _, _ => []
  end.

(** Elementwise binary operation with NumPy broadcasting along the leading
    axis: equal lengths combine pointwise, a length-one operand is
    stretched, anything else is a shape error. *)
Definition broadcast2 (f : A -> B -> C) (xs : list A) (ys : list B)
  : result (list C) :=
  if Nat.eqb (length xs) (length ys) then Ok (map2 f xs ys)
  else match xs, ys with
       | [x], _ => Ok (map (fun y => f x y) ys)
       | _, [y] => Ok (map (fun x => f x y) xs)
       | _, _ => Raise ShapeError
       end.
End Elementwise.

Section LeadingAxis.
(** An entry along the leading axis is an [A]: a number, or an array over
    the trailing axes, with its addition and subtraction. *)
Context {A : Type}.
Variables add sub : A -> A -> A.

(** [jnp.cumsum(a, axis=0)]: running sums from the left. *)
Fixpoint cumsum_from (acc : A) (l : list A) : list A :=
  match l with
  | [] => []
  | x :: t => add acc x :: cumsum_from (add acc x) t
  end.

Definition cumsum (l : list A) : list A :=
  match l with
  | [] => []
  | x :: t => x :: cumsum_from x t
  end.

(** [jnp.diff(a, axis=0)]: [a[1:] - a[:-1]]. *)
Definition diff (l : list A) : list A := map2 sub (tl l) (removelast l).

(** [jnp.diff(a, prepend=p, axis=0)]. *)
Definition diff_prepend (p : A) (l : list A) : list A := diff (p :: l).
End LeadingAxis.

End Jnp.

(** ** ForcedIdentifiability *)

Module ForcedIdentifiability.

(** An array over the trailing axes, that is of the common shape of [low]
    and [high] after [jnp.broadcast_arrays]; [I] is the set of its indices
    ([unit] when [low] and [high] are scalars).  A sample is a list of such
    arrays along the leading axis. *)
Definition trailing (I : Type) : Type := I -> R.

(** The fields set by [__init__]. *)
Record t (I : Type) : Type := mk {
  n : Z;
  low : trailing I;
  high : trailing I;
  fix_left : bool;
  fix_right : bool
}.

Arguments mk {I} n low high fix_left fix_right.
Arguments n {I} p : rename.
Arguments low {I} p : rename.
Arguments high {I} p : rename.
Arguments fix_left {I} p : rename.
Arguments fix_right {I} p : rename.

Definition py_bool_str (b : bool) : string :=
  if b then "True"%string else "False"%string.

Definition n_min (fix_left fix_right : bool) : Z :=
  ((if fix_left then 1 else 0) + (if fix_right then 1 else 0))%Z.

(** [k = jnp.arange(n) + 1]. *)
Definition ks (n : Z) : list R := map (fun x => x + 1) (Jnp.arange n).

Section Prior.
Context {I : Type}.

(** Addition and subtraction of arrays over the trailing axes. *)
Definition padd (a b : trailing I) : trailing I := fun i => a i + b i.
Definition psub (a b : trailing I) : trailing I := fun i => a i - b i.

Section Init.
(** What a caller passes for [low] and [high], and [jnp.broadcast_arrays]
    on the two: both as arrays of their common shape, or an error. *)
Context {input : Type}.
Variable broadcast_arrays :
  input -> input -> result (trailing I * trailing I).

(** [ForcedIdentifiability.__init__]. *)
Definition init (n : Z) (low high : input) (fix_left fix_right : bool)
  : result (t I) :=
  if (n <? n_min fix_left fix_right)%Z then
    Raise (ValueError ("`n` too small for fix_left=" ++ py_bool_str fix_left
                       ++ " and fix_right=" ++ py_bool_str fix_right)%string)
  else
    '(low, high) <- broadcast_arrays low high ;;
    Ok (mk n low high fix_left fix_right).
End Init.

(** The count [n] after the two [if self.fix_...: n -= 1] statements that
    open [_base_shape], [_log_prob], [_cdf] and [_quantile]. *)
Definition n_free (p : t I) : Z :=
  let n := n p in
  let n := if fix_left p then (n - 1)%Z else n in
  let n := if fix_right p then (n - 1)%Z else n in
  n.

(** [_base_shape] and [_shape]; [shape_low] is [np.shape(self.low)]. *)
Definition base_shape (shape_low : list Z) (p : t I) : list Z :=
  n_free p :: shape_low.
Definition shape (shape_low : list Z) (p : t I) : list Z := n p :: shape_low.

(** [_quantile]; [k] is reshaped to [(n, 1, ..., 1)], so each entry divides
    a whole array over the trailing axes. *)
Definition quantile (p : t I) (U : list (trailing I))
  : result (list (trailing I)) :=
  let n := n_free p in
  let log_x := map (fun u i => ln (u i)) U in
  let k := ks n in
  inner <- Jnp.broadcast2 (fun x k i => x i / k) log_x k ;;
  let log_output := rev (Jnp.cumsum padd (rev inner)) in
  let output :=
    map (fun e i => low p i + (high p i - low p i) * exp (e i)) log_output in
  let output := if fix_left p then [low p] ++ output else output in
  let output := if fix_right p then output ++ [high p] else output in
  Ok output.

(** [_cdf]. *)
Definition cdf (p : t I) (X : list (trailing I))
  : result (list (trailing I)) :=
  let X := if fix_left p then tl X else X in
  let X := if fix_right p then removelast X else X in
  let n := n_free p in
  let log_output :=
    map (fun x i => ln ((x i - low p i) / (high p i - low p i))) X in
  let inner := rev (Jnp.diff_prepend psub (fun _ => 0) (rev log_output)) in
  let k := ks n in
  log_x <- Jnp.broadcast2 (fun x k i => x i * k) inner k ;;
  Ok (map (fun x i => exp (x i)) log_x).

Definition forward (p : t I) (U : list (trailing I)) := quantile p U.
Definition inverse (p : t I) (X : list (trailing I)) := cdf p X.

(** [_log_prob]; [gammaln] is [jax.scipy.special.gammaln], taken as a
    parameter.  The argument [X] is not inspected; the result has the shape
    of [low]. *)
Definition log_prob (gammaln : R -> R) (p : t I) (X : list (trailing I))
  : trailing I :=
  let n := n_free p in
  let log_n_fac := gammaln (IZR (n + 1)) in
  let diff := psub (high p) (low p) in
  let log_prob := fun i => - log_n_fac - IZR n * ln (diff i) in
  log_prob.
End Prior.

End ForcedIdentifiability.

(** ** Bernoulli *)

Module Bernoulli.

Section Dist.
(** [self.dist._probs_parameter_no_checks()] and [self.dist.cdf] of the
    wrapped [tfpd.Bernoulli]. *)
Variable probs : R.
Variable dist_cdf : Z -> R.

(** [_quantile]: [jnp.less(U, probs).astype(self.dtype)]. *)
Definition quantile (U : R) : Z :=
  let sample := if Rlt_dec U probs then true else false in
  if sample then 1%Z else 0%Z.

Definition forward (U : R) : Z := quantile U.
Definition inverse (X : Z) : R := dist_cdf X.
End Dist.

End Bernoulli.

(** ** Beta *)

Module Beta.

(** What a caller may pass as a concentration parameter. *)
Inductive param : Type :=
| PyNone
| PyInt (z : Z)
| PyFloat (r : R)
| NdArray (a : list R)       (* a [numpy.ndarray], flattened *)
| JaxArray (a : list R).     (* any other array-like, e.g. a [jax.Array] *)

(** The distribution object stored in [self.dist]. *)
Inductive dist : Type :=
| Kumaraswamy (concentration0 concentration1 : param)
| TfpBeta (concentration0 concentration1 : param).

Definition req1 (x : R) : bool := if Req_dec_T x 1 then true else false.

(** [isinstance(c, (float, int)) and c == 1]. *)
Definition scalar_is_one (c : param) : bool :=
  match c with
  | PyInt z => Z.eqb z 1
  | PyFloat r => req1 r
  | _ => false
  end.

(** [isinstance(c, np.ndarray) and np.all(c == 1)]. *)
Definition ndarray_all_one (c : param) : bool :=
  match c with
  | NdArray a => forallb req1 a
  | _ => false
  end.

(** [Beta.__init__]. *)
Definition init (concentration0 concentration1 : param) : dist :=
  if scalar_is_one concentration0 then
    Kumaraswamy concentration0 concentration1
  else if scalar_is_one concentration1 then
    Kumaraswamy concentration0 concentration1
  else if ndarray_all_one concentration0 then
    Kumaraswamy concentration0 concentration1
  else if ndarray_all_one concentration1 then
    Kumaraswamy concentration0 concentration1
  else
    TfpBeta concentration0 concentration1.

Section Quantile.
(** The quantile functions of [tfpd.Kumaraswamy] and [tfpd.Beta]
    (concentration0, concentration1, cumulative probabilities). *)
Variable kumaraswamy_quantile : param -> param -> list R -> list R.
Variable beta_quantile : param -> param -> list R -> list R.

Definition dist_quantile (d : dist) (U : list R) : list R :=
  match d with
  | Kumaraswamy c0 c1 => kumaraswamy_quantile c0 c1 U
  | TfpBeta c0 c1 => beta_quantile c0 c1 U
  end.

(** [_quantile] and [_forward]. *)
Definition quantile (d : dist) (U : list R) : list R := dist_quantile d U.
Definition forward (d : dist) (U : list R) : list R := quantile d U.
End Quantile.

(** The entries of a concentration parameter, as a flat list. *)
Definition entries (c : param) : list R :=
  match c with
  | PyNone => []
  | PyInt z => [IZR z]
  | PyFloat r => [r]
  | NdArray a => a
  | JaxArray a => a
  end.

End Beta.

(** ** Categorical *)

Module Categorical.

(** Modelled from the spec: [jaxns.internals.log_semiring.cumulative_logsumexp]
    is not among the sources; the spec describes it as the cumulative
    log-sum-exp along the category axis, so entry [i] is the logarithm of
    [exp(logits[0]) + ... + exp(logits[i])]. *)
Definition cumulative_logsumexp (logits : list R) : list R :=
  map ln (Jnp.cumsum Rplus (map exp logits)).

(** [jnp.searchsorted(a, v, side='left')] for a sorted [a]: the first index
    [i] with [v <= a[i]], or [len(a)] when there is none. *)
Fixpoint searchsorted_left (a : list R) (v : R) : nat :=
  match a with
  | [] => 0%nat
  | x :: t => if Rle_dec v x then 0%nat else S (searchsorted_left t v)
  end.

(** [jnp.argmax] along the last axis: the first index of a largest entry. *)
Fixpoint argmax_from (best : R) (besti i : nat) (l : list R) : nat :=
  match l with
  | [] => besti
  | x :: t => if Rlt_dec best x then argmax_from x i (S i) t
              else argmax_from best besti (S i) t
  end.

Definition argmax (l : list R) : nat :=
  match l with
  | [] => 0%nat
  | x :: t => argmax_from x 0%nat 1%nat t
  end.

(** [jax.vmap] of a two-argument function over the leading axes of both
    arguments, which must agree. *)
Fixpoint zip_with {A B C : Type} (f : A -> B -> C) (xs : list A) (ys : list B)
  : list C :=
  match xs, ys with
  | x :: xs', y :: ys' => f x y :: zip_with f xs' ys'
  | _, _ => []
  end.

Definition vmap2 {A B C : Type} (f : A -> B -> C) (xs : list A) (ys : list B)
  : result (list C) :=
  if Nat.eqb (length xs) (length ys) then Ok (zip_with f xs ys)
  else Raise ShapeError.

Section Dist.
Variable parametrisation : string.
(** [self.dist._logits_parameter_no_checks()], one row of [N] logits, and
    [self.dist.cdf] of the wrapped [tfpd.Categorical]. *)
Variable logits : list R.
Variable dist_cdf : Z -> R.

(** [_inverse]. *)
Definition inverse (X : Z) : result R :=
  if String.eqb parametrisation "cdf" then Ok (dist_cdf X)
  else Raise NotImplementedError.

(** [_quantile_gumbelmax]: one uniform per category. *)
Definition quantile_gumbelmax (U : list R) : result Z :=
  let z := map (fun u => - ln (- ln u)) U in
  noisy <- Jnp.broadcast2 Rplus logits z ;;
  Ok (Z.of_nat (argmax noisy)).

(** [cum_logits -= cum_logits[..., -1:]]. *)
Definition normalised_cum_logits : list R :=
  let cum_logits := cumulative_logsumexp logits in
  map (fun c => c - last cum_logits 0) cum_logits.

(** [_quantile_cdf]: the single row of normalised cumulative logits and
    the raveled [log(U)] are mapped over together. *)
Definition quantile_cdf (U : list R) : result (list Z) :=
  let cum_logits_flat := [normalised_cum_logits] in
  let log_U_flat := map ln U in
  category_flat <-
    vmap2 (fun a v => searchsorted_left a v) cum_logits_flat log_U_flat ;;
  Ok (map Z.of_nat category_flat).

(** [_forward]; an unknown parametrisation falls off the end of the
    method, which returns [None]. *)
Definition forward (U : list R) : result (option (list Z)) :=
  if String.eqb parametrisation "gumbel_max" then
    x <- quantile_gumbelmax U ;; Ok (Some [x])
  else if String.eqb parametrisation "cdf" then
    x <- quantile_cdf U ;; Ok (Some x)
  else Ok None.
End Dist.

End Categorical.

(** ** Poisson *)

Module Poisson.

(** [lax.scan(f, init, xs)]: thread the carry through [xs], collecting the
    per-step outputs. *)
Fixpoint scan {C X Y : Type} (f : C -> X -> C * Y) (init : C) (xs : list X)
  : C * list Y :=
  match xs with
  | [] => (init, [])
  | x :: t => let '(c, y) := f init x in
              let '(c', ys) := scan f c t in
              (c', y :: ys)
  end.

(** [lax.scan(f, init, xs, unroll=unroll)]: the number of steps unrolled
    per loop iteration must be positive, whatever the length of [xs]. *)
Definition lax_scan {C X Y : Type} (f : C -> X -> C * Y) (init : C)
    (xs : list X) (unroll : nat) : result (C * list Y) :=
  if Nat.eqb unroll 0 then
    Raise (ValueError "`unroll` must be a `bool` or a positive `int`.")
  else Ok (scan f init xs).

(** [jax.vmap] of a function that may fail. *)
Fixpoint vmap {A B : Type} (f : A -> result B) (xs : list A)
  : result (list B) :=
  match xs with
  | [] => Ok []
  | x :: t => y <- f x ;; ys <- vmap f t ;; Ok (y :: ys)
  end.

(** [x.astype(int_type)]: truncation towards zero into the signed integers
    of [bits] bits; a value beyond their range becomes the nearest end of
    the range.  [int_type] comes from [jaxns.internals.types]: 32 bits,
    or 64 when JAX runs with 64-bit types. *)
Definition astype_int (bits : Z) (x : R) : Z :=
  let z := if Rle_dec 0 x then Int_part x else (- Int_part (- x))%Z in
  Z.max (- 2 ^ (bits - 1)) (Z.min (2 ^ (bits - 1) - 1) z).

Definition carry : Type := (R * R * R * R)%type.

Section Bisection.
(** [lax.igammac], the regularised upper incomplete gamma function, and the
    width of [int_type]. *)
Variable igammac : R -> R -> R.
Variable int_bits : Z.

Definition smooth_cdf (x rate : R) : R := igammac (x + 1) rate.

(** The body of the scan; [jnp.where(c, x, y)] is [if c then x else y]. *)
Definition fixed_point_update (U rate : R) (x : carry) (args : nat)
  : carry * R :=
  let '(a, b, f_a, f_b) := x in
  let c := 0.5 * (a + b) in
  let f_c := smooth_cdf c rate in
  let left := if Rgt_dec f_c U then true else false in
  let a1 := if left then a else c in
  let f_a1 := if left then f_a else f_c in
  let b1 := if left then c else b in
  let f_b1 := if left then f_c else f_b in
  let a2 := a in
  let f_a2 := f_a in
  let b2 := b * 2 in
  let f_b2 := smooth_cdf b2 rate in
  let bounded := if Rge_dec f_b U then true else false in
  let a := if bounded then a1 else a2 in
  let b := if bounded then b1 else b2 in
  let f_a := if bounded then f_a1 else f_a2 in
  let f_b := if bounded then f_b1 else f_b2 in
  let new_x := (a, b, f_a, f_b) in
  (new_x, 0.5 * (a + b)).

(** The start of the search: the bracket [[0, rate]]. *)
Definition init_carry (rate : R) : carry :=
  let a := 0 in
  let b := rate in
  let f_a := 0 in
  let f_b := smooth_cdf b rate in
  (a, b, f_a, f_b).

(** [_poisson_quantile_bisection] for a scalar [U] and a scalar [rate];
    the scan is asked to unroll [max_iter] steps or one. *)
Definition _poisson_quantile_bisection
    (U rate : R) (max_iter : nat) (unroll : bool) : result (R * list R) :=
  let rate := Rmax rate (1 / 100000) in
  '(a, b, f_a, f_b, x_results) <-
    lax_scan (fixed_point_update U rate) (init_carry rate) (seq 0 max_iter)
      (if unroll then max_iter else 1%nat) ;;
  let c := 0.5 * (a + b) in
  Ok (c, x_results).

(** The default of the [max_iter] argument. *)
Definition max_iter_default : nat := 15.

(** [_poisson_quantile]. *)
Definition _poisson_quantile (U rate : R) (unroll : bool) : result Z :=
  '(x, _) <- _poisson_quantile_bisection U rate max_iter_default unroll ;;
  Ok (astype_int int_bits x).

(** [Poisson._quantile] / [_forward] with a scalar rate: a scalar [U] is
    handed on, an array is mapped over its raveled entries. *)
Definition forward (rate : R) (U : R) : result Z :=
  _poisson_quantile U rate false.
Definition forward_array (rate : R) (U : list R) : result (list Z) :=
  vmap (fun u => _poisson_quantile u rate false) U.
End Bisection.

End Poisson.

(** ** The named-tuple serialisation bridge *)

Module NamedtupleUtils.

(** The Python scalars that [ndarray.tolist()] produces and [np.array]
    reads back. *)
Inductive scalar : Type :=
| SBool (b : bool)
| SInt (z : Z)
| SFloat (r : R).

(** A named-tuple class: [__module__], [__name__] and [_fields]. *)
Record pyclass : Type := mkclass {
  cmodule : string;
  cname : string;
  cfields : list string
}.

#[local] Unset Elimination Schemes.

(** The values the bridge walks.  A dictionary is the list of its items in
    insertion order (keys are strings and occur once); a named tuple carries
    its class and one value per field; an array carries the name of its
    dtype, its shape and its entries in row-major order. *)
Inductive pyobj : Type :=
| PNone
| PScalar (x : scalar)
| PStr (s : string)
| PList (l : list pyobj)
| PTuple (l : list pyobj)
| PDict (items : list (string * pyobj))
| PNamedTuple (cls : pyclass) (values : list pyobj)
| PNdArray (dtype : string) (shape : list nat) (data : list scalar).

#[local] Set Elimination Schemes.

(** *** Dictionaries *)

(** [key in d] and [d[key]]. *)
Fixpoint lookup (key : string) (d : list (string * pyobj)) : option pyobj :=
  match d with
  | [] => None
  | (k, v) :: rest => if String.eqb k key then Some v else lookup key rest
  end.

Definition getitem (d : list (string * pyobj)) (key : string) : result pyobj :=
  match lookup key d with
  | Some v => Ok v
  | None => Raise (KeyError key)
  end.

(** [v == tag] for a string literal [tag]. *)
Definition eq_str (v : pyobj) (tag : string) : bool :=
  match v with
  | PStr s => String.eqb s tag
  | _ => false
  end.

(** ['type' in obj and obj['type'] == tag]. *)
Definition has_type_tag (d : list (string * pyobj)) (tag : string) : bool :=
  match lookup "type" d with
  | Some v => eq_str v tag
  | None => false
  end.

(** *** Arrays *)

Definition prod_shape (shape : list nat) : nat := fold_right Nat.mul 1%nat shape.

(** Cut [data] into [d] consecutive pieces of [size] entries. *)
Fixpoint chunks (d size : nat) (data : list scalar) : list (list scalar) :=
  match d with
  | O => []
  | S d' => firstn size data :: chunks d' size (skipn size data)
  end.

(** [ndarray.tolist()]: nested lists following the shape, a bare scalar for
    a zero-dimensional array. *)
Fixpoint tolist (shape : list nat) (data : list scalar) : pyobj :=
  match shape with
  | [] => match data with
          | x :: _ => PScalar x
          | [] => PNone
          end
  | d :: rest => PList (map (tolist rest) (chunks d (prod_shape rest) data))
  end.

Definition shape_eqb (s1 s2 : list nat) : bool :=
  if list_eq_dec Nat.eq_dec s1 s2 then true else false.

(** The shape and row-major entries [np.array] finds in nested lists:
    a scalar has shape [()], an empty list shape [(0,)], a list of equally
    shaped items one more leading axis; ragged nesting is a [ValueError];
    leaves that are not numbers are outside the embedding. *)
Fixpoint of_nested (v : pyobj) : result (list nat * list scalar) :=
  match v with
  | PScalar x => Ok ([], [x])
  | PList l =>
      match l with
      | [] => Ok ([0%nat], [])
      | first :: _ =>
          '(sh, _) <- of_nested first ;;
          data <-
            (fix gather (items : list pyobj) : result (list scalar) :=
               match items with
               | [] => Ok []
               | it :: rest =>
                   '(sh', xs) <- of_nested it ;;
                   ys <- gather rest ;;
                   if shape_eqb sh' sh then Ok (xs ++ ys)
                   else Raise (ValueError "inhomogeneous shape")
               end) l ;;
          Ok (length l :: sh, data)
      end
  | _ => Raise Unmodelled
  end.

(** *** Class paths *)

(** [f"{cls.__module__}.{cls.__name__}"]. *)
Definition class_path (cls : pyclass) : string :=
  (cmodule cls ++ "." ++ cname cls)%string.

(** [path.rsplit('.', 1)] when it yields two parts: the split at the last
    dot. *)
Fixpoint rsplit_dot (path : string) : option (string * string) :=
  match path with
  | EmptyString => None
  | String c rest =>
      match rsplit_dot rest with
      | Some (m, n) => Some (String c m, n)
      | None => if Ascii.eqb c "." then Some (EmptyString, rest) else None
      end
  end.

(** Calling the class with keyword arguments: every field is taken from them;
    a missing or an unexpected keyword is a [TypeError]. *)
Fixpoint pick_fields (fields : list string) (kwargs : list (string * pyobj))
  : option (list pyobj) :=
  match fields with
  | [] => Some []
  | f :: rest =>
      match lookup f kwargs, pick_fields rest kwargs with
      | Some v, Some vs => Some (v :: vs)
      | _, _ => None
      end
  end.

Definition mem_str (k : string) (l : list string) : bool :=
  existsb (String.eqb k) l.

Definition construct (cls : pyclass) (kwargs : list (string * pyobj))
  : result pyobj :=
  if forallb (fun kv => mem_str (fst kv) (cfields cls)) kwargs then
    match pick_fields (cfields cls) kwargs with
    | Some vs => Ok (PNamedTuple cls vs)
    | None => Raise TypeError
    end
  else Raise TypeError.

(** *** The bridge *)

(** [serialise_ndarray] on an array. *)
Definition serialise_ndarray (dtype : string) (shape : list nat)
    (data : list scalar) : pyobj :=
  PDict [("type"%string, PStr "__ndarray__");
         ("__dtype__"%string, PStr dtype);
         ("__data__"%string, tolist shape data)].

(** [serialise_namedtuple]. *)
Fixpoint serialise_namedtuple (obj : pyobj) : pyobj :=
  match obj with
  | PNamedTuple cls values =>
      let class_name := class_path cls in
      PDict [("type"%string, PStr "__namedtuple__");
             ("__class__"%string, PStr class_name);
             ("__data__"%string,
              PDict (combine (cfields cls) (map serialise_namedtuple values)))]
  | PNdArray dtype shape data => serialise_ndarray dtype shape data
  | PList l => PList (map serialise_namedtuple l)
  | PTuple l => PList (map serialise_namedtuple l)
  | PDict items =>
      PDict (map (fun kv => (fst kv, serialise_namedtuple (snd kv))) items)
  | _ => obj
  end.

Section Process.
(** The running process: [importlib.import_module] followed by [getattr]
    on the module (no module of that name, or no such attribute, is
    [None]); which dtype names [np.dtype] understands; and the conversion
    of a Python scalar to a dtype, read back as a Python scalar. *)
Variable import_module : string -> option (string -> option pyclass).
Variable dtype_known : string -> bool.
Variable astype : string -> scalar -> scalar.

(** The two lookups that turn a class path into a class. *)
Definition resolve (class_path : string) : result pyclass :=
  match rsplit_dot class_path with
  | None => Raise (ValueError "not enough values to unpack")
  | Some (module_name, class_name) =>
      match import_module module_name with
      | None => Raise (ImportError module_name)
      | Some module =>
          match module class_name with
          | None => Raise (AttributeError class_name)
          | Some class_ => Ok class_
          end
      end
  end.

(** [np.array(data, dtype=dtype)]. *)
Definition np_array (data : pyobj) (dtype : string) : result pyobj :=
  if dtype_known dtype then
    '(shape, xs) <- of_nested data ;;
    Ok (PNdArray dtype shape (map (astype dtype) xs))
  else Raise TypeError.

(** [deserialise_ndarray] on a dictionary: the branch taken when
    [obj.get('type') == '__ndarray__'], the object itself otherwise. *)
Definition deserialise_ndarray (items : list (string * pyobj))
  : result pyobj :=
  if has_type_tag items "__ndarray__" then
    data <- getitem items "__data__" ;;
    dtype <- getitem items "__dtype__" ;;
    match dtype with
    | PStr dtype => np_array data dtype
    | _ => Raise Unmodelled
    end
  else Ok (PDict items).

(** [deserialise_namedtuple]. *)
Fixpoint deserialise_namedtuple (obj : pyobj) : result pyobj :=
  let each :=
    fix each (l : list pyobj) : result (list pyobj) :=
      match l with
      | [] => Ok []
      | v :: rest =>
          v' <- deserialise_namedtuple v ;;
          rest' <- each rest ;;
          Ok (v' :: rest')
      end in
  let each_value :=
    fix each_value (items : list (string * pyobj))
      : result (list (string * pyobj)) :=
      match items with
      | [] => Ok []
      | (k, v) :: rest =>
          v' <- deserialise_namedtuple v ;;
          rest' <- each_value rest ;;
          Ok ((k, v') :: rest')
      end in
  match obj with
  | PDict items =>
      if has_type_tag items "__namedtuple__" then
        class_path <- getitem items "__class__" ;;
        match class_path with
        | PStr class_path =>
            class_ <- resolve class_path ;;
            (fix data_of (its : list (string * pyobj)) : result pyobj :=
               match its with
               | [] => Raise (KeyError "__data__")
               | (k, v) :: rest =>
                   if String.eqb k "__data__" then
                     match v with
                     | PDict fields =>
                         kwargs <- each_value fields ;;
                         construct class_ kwargs
                     | _ => Raise (AttributeError "items")
                     end
                   else data_of rest
               end) items
        | _ => Raise (AttributeError "rsplit")
        end
      else if has_type_tag items "__ndarray__" then
        deserialise_ndarray items
      else
        items' <- each_value items ;;
        Ok (PDict items')
  | PList l | PTuple l | PNamedTuple _ l =>
      l' <- each l ;;
      Ok (PList l')
  | _ => Ok obj
  end.
End Process.

End NamedtupleUtils.

(** ** Categorical: the remaining methods *)

Module CategoricalRest.



Section Dist.
Variable parametrisation : string.
(** [self.dist._logits_parameter_no_checks()] (one row of logits), and
    [self._shape()], the batch shape of the distribution. *)
Variable logits : list R.
Variable shape : list nat.

(** [self.dist._num_categories()]. *)
Definition num_categories : nat := length logits.

(** [_base_shape]; an unknown parametrisation falls off the end of the
    method, which returns [None]. *)
Definition base_shape : option (list nat) :=
  if String.eqb parametrisation "gumbel_max" then
    Some (shape ++ [num_categories])
  else if String.eqb parametrisation "cdf" then Some shape
  else None.

End Dist.

End CategoricalRest.

(** ** The array pair of the serialisation bridge *)

Module NdarrayCodec.
Import NamedtupleUtils.

(** [serialise_ndarray]: an array becomes its tagged dictionary, anything
    else is returned as it is. *)
Definition serialise_ndarray (obj : pyobj) : pyobj :=
  match obj with
  | PNdArray dtype shape data =>
      NamedtupleUtils.serialise_ndarray dtype shape data
  | _ => obj
  end.

Section Process.
Variable dtype_known : string -> bool.
Variable astype : string -> scalar -> scalar.

(** [deserialise_ndarray]: a dictionary tagged ['__ndarray__'] becomes an
    array, anything else is returned as it is. *)
Definition deserialise_ndarray (obj : pyobj) : result pyobj :=
  match obj with
  | PDict items => NamedtupleUtils.deserialise_ndarray dtype_known astype items
  | _ => Ok obj
  end.
End Process.

End NdarrayCodec.

(** ** ForcedIdentifiability in floating point *)

Module ForcedIdentifiabilityIEEE.

(** [_quantile] once more, computed as the program computes it: in IEEE 754
    binary floating point with [prec] bits of precision and exponents below
    [emax], rounding to nearest, ties to even (24 and 128 for [float32],
    the [float_type] of JAX's default configuration; 53 and 1024 for
    [float64]).  [jnp.log] and [jnp.exp] are parameters; [low] and [high]
    are scalars. *)
Definition float : Type := SpecFloat.spec_float.

Record t : Type := mk {
  n : Z;
  low : float;
  high : float;
  fix_left : bool;
  fix_right : bool
}.

Definition n_free (p : t) : Z :=
  let n := n p in
  let n := if fix_left p then (n - 1)%Z else n in
  let n := if fix_right p then (n - 1)%Z else n in
  n.

Definition zero : float := SpecFloat.S754_zero false.

Section Format.
Variables prec emax : Z.

Definition add : float -> float -> float := SpecFloat.SFadd prec emax.
Definition sub : float -> float -> float := SpecFloat.SFsub prec emax.
Definition mul : float -> float -> float := SpecFloat.SFmul prec emax.
Definition div : float -> float -> float := SpecFloat.SFdiv prec emax.

(** An integer as a floating-point number. *)
Definition of_int (z : Z) : float :=
  SpecFloat.binary_normalize prec emax z 0 false.

(** [k = jnp.arange(n) + 1], converted for the division. *)
Definition ks (n : Z) : list float :=
  map (fun i => of_int (Z.of_nat i + 1)) (seq 0 (Z.to_nat n)).

Variables log exp : float -> float.

(** [_quantile]. *)
Definition quantile (p : t) (U : list float) : result (list float) :=
  let n := n_free p in
  let log_x := map log U in
  let k := ks n in
  inner <- Jnp.broadcast2 div log_x k ;;
  let log_output := rev (Jnp.cumsum add (rev inner)) in
  let output :=
    map (fun e => add (low p) (mul (sub (high p) (low p)) (exp e)))
      log_output in
  let output := if fix_left p then [low p] ++ output else output in
  let output := if fix_right p then output ++ [high p] else output in
  Ok output.

Definition forward (p : t) (U : list float) := quantile p U.
End Format.

End ForcedIdentifiabilityIEEE.

(** * Properties *)

(** ** Array lemmas *)

Module JnpFacts.
Import Jnp.

Section Elementwise.
Context {A B C : Type}.

Lemma map2_length (f : A -> B -> C) (xs : list A) (ys : list B) :
  length xs = length ys -> length (map2 f xs ys) = length xs.
Proof.
  revert ys; induction xs as [|x xs IH]; intros [|y ys] H; simpl in *;
    try discriminate; auto.
Qed.

Lemma map2_Forall (P : A -> Prop) (Q : B -> Prop) (S : C -> Prop)
    (f : A -> B -> C) (xs : list A) (ys : list B) :
  (forall x y, P x -> Q y -> S (f x y)) ->
  Forall P xs -> Forall Q ys -> Forall S (map2 f xs ys).
Proof.
  intros Hf Hx; revert ys; induction Hx as [|x xs Px Hxs IH]; intros ys Hy.
  - constructor.
  - destruct Hy as [|y ys Qy Hys]; simpl; constructor; auto.
Qed.

Lemma broadcast2_same_length (f : A -> B -> C) (xs : list A) (ys : list B) :
  length xs = length ys -> broadcast2 f xs ys = Ok (map2 f xs ys).
Proof.
  intros H; unfold broadcast2; rewrite (proj2 (Nat.eqb_eq _ _) H); reflexivity.
Qed.
End Elementwise.

(** Reading one entry of the trailing axes commutes with the operations
    along the leading axis. *)
Section Entry.
Context {A A' B C C' : Type}.
Variables (at_a : A -> A') (at_c : C -> C').

Lemma map_map2 (f : A -> B -> C) (g : A' -> B -> C')
    (xs : list A) (ys : list B) :
  (forall x y, at_c (f x y) = g (at_a x) y) ->
  map at_c (map2 f xs ys) = map2 g (map at_a xs) ys.
Proof.
  intros H; revert ys; induction xs as [|x xs IH]; intros [|y ys]; simpl;
    try reflexivity.
  now rewrite H, IH.
Qed.

Lemma map_cumsum_from (add : A -> A -> A) (add' : A' -> A' -> A')
    (a : A) (l : list A) :
  (forall a b, at_a (add a b) = add' (at_a a) (at_a b)) ->
  map at_a (cumsum_from add a l) = cumsum_from add' (at_a a) (map at_a l).
Proof.
  intros H; revert a; induction l as [|x l IH]; intros a; simpl;
    [reflexivity|].
  now rewrite IH, H.
Qed.

Lemma map_cumsum (add : A -> A -> A) (add' : A' -> A' -> A') (l : list A) :
  (forall a b, at_a (add a b) = add' (at_a a) (at_a b)) ->
  map at_a (cumsum add l) = cumsum add' (map at_a l).
Proof.
  intros H; destruct l as [|x l]; simpl; [reflexivity|].
  now rewrite (map_cumsum_from add add').
Qed.
End Entry.

Section Length.
Context {A : Type}.
Variable add : A -> A -> A.

Lemma cumsum_from_length (a : A) (l : list A) :
  length (cumsum_from add a l) = length l.
Proof. revert a; induction l; intros; simpl; auto. Qed.

Lemma cumsum_length (l : list A) : length (cumsum add l) = length l.
Proof. destruct l; simpl; [|rewrite cumsum_from_length]; reflexivity. Qed.
End Length.

(** [jnp.diff] with the start value prepended undoes [jnp.cumsum]. *)
Section Undo.
Context {A : Type}.
Variables (add sub : A -> A -> A) (zero : A).
Hypothesis add_sub : forall a x, sub (add a x) a = x.
Hypothesis sub_zero : forall x, sub x zero = x.

Lemma diff_cumsum_from (a : A) (l : list A) :
  diff sub (a :: cumsum_from add a l) = l.
Proof.
  revert a; induction l as [|x l IH]; intros a; [reflexivity|].
  specialize (IH (add a x)).
  unfold diff in *; simpl in *.
  now rewrite IH, add_sub.
Qed.

Lemma diff_prepend_cumsum (l : list A) :
  diff_prepend sub zero (cumsum add l) = l.
Proof.
  destruct l as [|x l]; [reflexivity|].
  pose proof (diff_cumsum_from x l) as H.
  unfold diff_prepend, diff in *; simpl in *.
  now rewrite H, sub_zero.
Qed.
End Undo.

Definition sum (l : list R) : R := fold_right Rplus 0 l.

(** Sums of the tails of a list: entry [i] is [l[i] + l[i+1] + ...]. *)
Fixpoint suffix_sums (l : list R) : list R :=
  match l with
  | [] => []
  | x :: t => (x + sum t) :: suffix_sums t
  end.

Lemma arange_length (n : Z) : length (arange n) = Z.to_nat n.
Proof. unfold arange; rewrite length_map, length_seq; reflexivity. Qed.

Lemma cumsum_as_from (l : list R) : cumsum Rplus l = cumsum_from Rplus 0 l.
Proof.
  destruct l as [|x t]; simpl; [reflexivity|].
  now rewrite Rplus_0_l.
Qed.

Lemma cumsum_from_snoc (a x : R) (l : list R) :
  cumsum_from Rplus a (l ++ [x]) = cumsum_from Rplus a l ++ [a + sum l + x].
Proof.
  revert a; induction l as [|y l IH]; intros a; simpl.
  - f_equal; lra.
  - rewrite IH.
    replace (a + y + sum l + x) with (a + (y + sum l) + x) by lra.
    reflexivity.
Qed.

Lemma sum_app (l1 l2 : list R) : sum (l1 ++ l2) = sum l1 + sum l2.
Proof. induction l1 as [|x l1 IH]; simpl; [lra | rewrite IH; lra]. Qed.

Lemma sum_rev (l : list R) : sum (rev l) = sum l.
Proof.
  induction l as [|x l IH]; simpl; [reflexivity|].
  rewrite sum_app, IH; simpl; lra.
Qed.

(** The reverse / cumulative-sum / reverse idiom computes the tail sums. *)
Lemma rev_cumsum_rev (l : list R) :
  rev (cumsum Rplus (rev l)) = suffix_sums l.
Proof.
  rewrite cumsum_as_from.
  induction l as [|x l IH]; simpl; [reflexivity|].
  rewrite cumsum_from_snoc, rev_app_distr, IH, sum_rev; simpl.
  f_equal; lra.
Qed.

Lemma suffix_sums_length (l : list R) : length (suffix_sums l) = length l.
Proof. induction l; simpl; auto. Qed.

End JnpFacts.

(** ** ForcedIdentifiability: order, fixed end points, round trip *)

Module ForcedIdentifiabilityFacts.
Import Jnp JnpFacts ForcedIdentifiability.

(** *** One entry of the trailing axes *)

(** The column of a sample at one index of the trailing axes. *)
Definition column {I : Type} (i : I) (rows : list (trailing I)) : list R :=
  map (fun row => row i) rows.

(** Column [i] of [log(U) / k]. *)
Definition inner_column (nf : Z) (u : list R) : list R :=
  map2 Rdiv (map ln u) (ks nf).

(** Column [i] of [_quantile]'s output before the end points are attached,
    with [lo = low[i]] and [hi = high[i]]. *)
Definition core_column (lo hi : R) (inner : list R) : list R :=
  map (fun e => lo + (hi - lo) * exp e) (suffix_sums inner).

Lemma ks_length (m : Z) : length (ks m) = Z.to_nat m.
Proof. unfold ks; rewrite length_map; apply arange_length. Qed.

Lemma ks_pos (m : Z) : Forall (fun k => 0 < k) (ks m).
Proof.
  unfold ks, arange; rewrite map_map; apply Forall_forall.
  intros k Hk; apply in_map_iff in Hk as [i [<- _]].
  pose proof (pos_INR i); lra.
Qed.






(** *** The whole sample *)

Section Prior.
Context {I : Type}.

(** An array of [(0,1)] uniforms of the prior's base shape. *)
Definition unit_cube (p : t I) (U : list (trailing I)) : Prop :=
  length U = Z.to_nat (n_free p)
  /\ Forall (fun u => forall i, 0 < u i < 1) U.

(** [log(U) / k], the array [inner] of [_quantile]. *)
Definition inner_rows (p : t I) (U : list (trailing I)) : list (trailing I) :=
  map2 (fun x k i => x i / k) (map (fun u i => ln (u i)) U) (ks (n_free p)).

(** [_quantile]'s output before the end points are attached. *)
Definition core (p : t I) (U : list (trailing I)) : list (trailing I) :=
  map (fun e i => low p i + (high p i - low p i) * exp (e i))
      (rev (cumsum padd (rev (inner_rows p U)))).

Section Built.
Context {input : Type}.
Variable broadcast_arrays :
  input -> input -> result (trailing I * trailing I).

Lemma init_ok (m : Z) (lo hi : input) (fl fr : bool) (p : t I) :
  init broadcast_arrays m lo hi fl fr = Ok p ->
  (n_min fl fr <= m)%Z
  /\ exists l h, broadcast_arrays lo hi = Ok (l, h) /\ p = mk m l h fl fr.
Proof.
  unfold init; destruct (Z.ltb_spec m (n_min fl fr)) as [Hlt | Hge];
    [discriminate|].
  destruct (broadcast_arrays lo hi) as [[l h] | e]; [|discriminate].
  intros H; injection H as <-; split; [lia|].
  exists l, h; split; reflexivity.
Qed.
End Built.

Lemma n_free_eq (p : t I) :
  n_free p = (n p - n_min (fix_left p) (fix_right p))%Z.
Proof.
  unfold n_free, n_min; destruct (fix_left p), (fix_right p); lia.
Qed.

Lemma inner_rows_length (p : t I) (U : list (trailing I)) :
  length U = Z.to_nat (n_free p) -> length (inner_rows p U) = length U.
Proof.
  intros HU; unfold inner_rows.
  rewrite map2_length; rewrite length_map, ?ks_length; auto.
Qed.

Lemma core_length (p : t I) (U : list (trailing I)) :
  length U = Z.to_nat (n_free p) -> length (core p U) = length U.
Proof.
  intros HU; unfold core.
  now rewrite length_map, length_rev, cumsum_length, length_rev,
    inner_rows_length.
Qed.

Lemma quantile_eq (p : t I) (U : list (trailing I)) :
  length U = Z.to_nat (n_free p) ->
  quantile p U =
  Ok ((if fix_left p then [low p] else [])
      ++ core p U
      ++ (if fix_right p then [high p] else [])).
Proof.
  intros HU; unfold quantile.
  rewrite broadcast2_same_length by now rewrite length_map, ks_length.
  cbn [bind]; fold (inner_rows p U); fold (core p U).
  destruct (fix_left p), (fix_right p); simpl;
    rewrite ?app_nil_r; reflexivity.
Qed.

(** Column [i] of the sample is computed from column [i] of [U] alone. *)
Lemma column_core (p : t I) (U : list (trailing I)) (i : I) :
  column i (core p U)
  = core_column (low p i) (high p i) (inner_column (n_free p) (column i U)).
Proof.
  unfold column, core, core_column, inner_column, inner_rows.
  rewrite map_map, <- rev_cumsum_rev.
  rewrite <- (map_map (fun row : trailing I => row i)
                (fun e => low p i + (high p i - low p i) * exp e)).
  f_equal.
  rewrite map_rev; f_equal.
  rewrite (map_cumsum (fun row : trailing I => row i) padd Rplus)
    by reflexivity.
  f_equal; rewrite map_rev; f_equal.
  rewrite (map_map2 (fun row : trailing I => row i) (fun row : trailing I => row i)
             (fun x k i => x i / k) Rdiv) by reflexivity.
  now rewrite !map_map.
Qed.

Lemma column_app (i : I) (l1 l2 : list (trailing I)) :
  column i (l1 ++ l2) = column i l1 ++ column i l2.
Proof. apply map_app. Qed.

Lemma strip_ends {A : Type} (fl fr : bool) (lo hi : A) (c : list A) :
  (let X := (if fl then [lo] else []) ++ c ++ (if fr then [hi] else []) in
   let X := if fl then tl X else X in
   if fr then removelast X else X) = c.
Proof.
  destruct fl, fr; simpl; rewrite ?removelast_last, ?app_nil_r; reflexivity.
Qed.

Lemma padd_psub (a x : trailing I) : psub (padd a x) a = x.
Proof.
  apply functional_extensionality; intros i; unfold psub, padd; lra.
Qed.

Lemma psub_zero (x : trailing I) : psub x (fun _ => 0) = x.
Proof.
  apply functional_extensionality; intros i; unfold psub; lra.
Qed.

Lemma core_normalised (p : t I) (U : list (trailing I)) :
  (forall i, low p i <> high p i) ->
  map (fun x i => ln ((x i - low p i) / (high p i - low p i))) (core p U)
  = rev (cumsum padd (rev (inner_rows p U))).
Proof.
  intros Hne; unfold core; rewrite map_map.
  rewrite <- (map_id (rev _)) at 2.
  apply map_ext; intros e; apply functional_extensionality; intros i.
  specialize (Hne i).
  replace ((low p i + (high p i - low p i) * exp (e i) - low p i)
           / (high p i - low p i)) with (exp (e i)) by (field; lra).
  apply ln_exp.
Qed.

Lemma times_k_undoes_div_k (xs : list (trailing I)) (k : list R) :
  Forall (fun k => 0 < k) k -> length xs = length k ->
  map2 (fun x k i => x i * k) (map2 (fun x k i => x i / k) xs k) k = xs.
Proof.
  intros Hk; revert xs; induction Hk as [|k0 k Hk0 Hk IH];
    intros [|x xs] Hlen; simpl in *; try discriminate; [reflexivity|].
  rewrite IH by lia; f_equal.
  apply functional_extensionality; intros i; field; lra.
Qed.

Lemma exp_ln_rows (U : list (trailing I)) :
  Forall (fun u => forall i, 0 < u i < 1) U ->
  map (fun x i => exp (x i)) (map (fun u i => ln (u i)) U) = U.
Proof.
  induction 1 as [|u U Hu HU IH]; simpl; [reflexivity|].
  rewrite IH; f_equal.
  apply functional_extensionality; intros i; apply exp_ln, Hu.
Qed.

Lemma cdf_quantile (p : t I) (U : list (trailing I)) :
  (forall i, low p i <> high p i) -> unit_cube p U ->
  exists X, quantile p U = Ok X /\ cdf p X = Ok U.
Proof.
  intros Hne [Hlen HU].
  eexists; split; [apply quantile_eq; assumption|].
  unfold cdf.
  pose proof (strip_ends (fix_left p) (fix_right p) (low p) (high p)
                (core p U)) as Hstrip; cbv zeta in Hstrip.
  rewrite Hstrip, core_normalised by assumption.
  rewrite rev_involutive,
    (diff_prepend_cumsum padd psub (fun _ => 0) padd_psub psub_zero),
    rev_involutive.
  rewrite broadcast2_same_length
    by (rewrite inner_rows_length, ?ks_length; assumption).
  cbn [bind]; unfold inner_rows.
  rewrite times_k_undoes_div_k;
    [| apply ks_pos | now rewrite length_map, ks_length].
  now rewrite exp_ln_rows.
Qed.

(** The free count as the specification writes it. *)
Definition n_free_spec (m : Z) (fl fr : bool) : Z :=
  (m - (if fl then 1 else 0) - (if fr then 1 else 0))%Z.

Section BuiltPrior.
Context {input : Type}.
Variable broadcast_arrays :
  input -> input -> result (trailing I * trailing I).


(** Built priors are inverted on the unit cube. *)
Lemma built_cdf_quantile
    (m : Z) (lo hi : input) (fl fr : bool) (p : t I)
    (U : list (trailing I)) :
  init broadcast_arrays m lo hi fl fr = Ok p ->
  (forall i, low p i <> high p i) -> unit_cube p U ->
  exists X, forward p U = Ok X /\ inverse p X = Ok U.
Proof. intros _ Hne HU; now apply cdf_quantile. Qed.

(** C3: with [gammaln] the log-gamma function (so [gammaln (k + 1)] is
    [ln (k!)]), [log_prob] of a prior built by [__init__] equals
    [- ln (n_free!) - n_free * ln (high - low)] where
    [n_free = n - (fix_left ? 1 : 0) - (fix_right ? 1 : 0)], at every index
    of the trailing axes; the value does not depend on [X]; and for
    [n = 3], [low = 0], [high = 1] with both end points fixed it is [0]. *)
Theorem log_prob_closed_form
    (gammaln : R -> R) (m : Z) (lo hi : input) (fl fr : bool) (p : t I)
    (X : list (trailing I)) :
  (forall k : nat, gammaln (INR k + 1) = ln (INR (fact k))) ->
  init broadcast_arrays m lo hi fl fr = Ok p ->
  (forall i, log_prob gammaln p X i
             = - ln (INR (fact (Z.to_nat (n_free_spec m fl fr))))
               - IZR (n_free_spec m fl fr) * ln (high p i - low p i))
  /\ (forall Y, log_prob gammaln p Y = log_prob gammaln p X)
  /\ (m = 3%Z -> fl = true -> fr = true ->
      forall i, low p i = 0 -> high p i = 1 -> log_prob gammaln p X i = 0).
Proof.
  intros Hg Hinit.
  apply init_ok in Hinit as (Hmin & l & h & _ & ->).
  assert (Hn : n_free (mk m l h fl fr) = n_free_spec m fl fr).
  { unfold n_free, n_free_spec; simpl; destruct fl, fr; lia. }
  assert (H0 : (0 <= n_free_spec m fl fr)%Z).
  { unfold n_free_spec, n_min in *; destruct fl, fr; lia. }
  assert (Hcf : forall i, log_prob gammaln (mk m l h fl fr) X i
                = - ln (INR (fact (Z.to_nat (n_free_spec m fl fr))))
                  - IZR (n_free_spec m fl fr) * ln (h i - l i)).
  { intros i; unfold log_prob, psub; rewrite Hn; simpl.
    rewrite <- (Hg (Z.to_nat (n_free_spec m fl fr))).
    rewrite plus_IZR, INR_IZR_INZ, Z2Nat.id by assumption. reflexivity. }
  split; [exact Hcf|]. split; [reflexivity|].
  intros -> -> -> i Hlo Hhi; rewrite Hcf; simpl in Hlo, Hhi.
  rewrite Hlo, Hhi; unfold n_free_spec; simpl.
  rewrite Rminus_0_r, ln_1; lra.
Qed.

(** C5 (amended): [__init__] raises its [ValueError] whenever [n] is smaller
    than the number of fixed end points, before it looks at [low] and
    [high]; when [n] is large enough its outcome is that of broadcasting
    [low] against [high]: the prior with the given fields, or the error of
    [jnp.broadcast_arrays].  So it returns exactly when [n] is large enough
    and the two broadcast, and raises exactly when [n] is too small or they
    do not; and when it raises, the error is what a caller who goes on to
    apply [forward] receives. *)
Theorem init_raises_iff_too_small
    (m : Z) (lo hi : input) (fl fr : bool) :
  ((m < (if fl then 1 else 0) + (if fr then 1 else 0))%Z ->
   init broadcast_arrays m lo hi fl fr
   = Raise (ValueError ("`n` too small for fix_left=" ++ py_bool_str fl
                        ++ " and fix_right=" ++ py_bool_str fr)%string))
  /\ (~ (m < (if fl then 1 else 0) + (if fr then 1 else 0))%Z ->
      init broadcast_arrays m lo hi fl fr
      = match broadcast_arrays lo hi with
        | Ok (l, h) => Ok (mk m l h fl fr)
        | Raise e => Raise e
        end)
  /\ ((exists p, init broadcast_arrays m lo hi fl fr = Ok p)
      <-> ~ (m < (if fl then 1 else 0) + (if fr then 1 else 0))%Z
          /\ exists l h, broadcast_arrays lo hi = Ok (l, h))
  /\ ((exists e, init broadcast_arrays m lo hi fl fr = Raise e)
      <-> (m < (if fl then 1 else 0) + (if fr then 1 else 0))%Z
          \/ exists e, broadcast_arrays lo hi = Raise e)
  /\ (forall e U, init broadcast_arrays m lo hi fl fr = Raise e ->
      (p <- init broadcast_arrays m lo hi fl fr ;; forward p U) = Raise e).
Proof.
  unfold init, n_min.
  destruct (Z.ltb_spec m ((if fl then 1 else 0) + (if fr then 1 else 0)))
    as [Hlt | Hge].
  - split; [intros _; reflexivity|].
    split; [intros Hn; contradiction|].
    split; [split; [intros [p H]; discriminate | intros [Hn _]; contradiction]|].
    split; [split; [intros _; left; exact Hlt | intros _; eexists; reflexivity]|].
    intros e U H; injection H as <-; reflexivity.
  - split; [intros Hlt; lia|].
    destruct (broadcast_arrays lo hi) as [[l h] | e']; cbn [bind].
    + split; [intros _; reflexivity|].
      split; [split; [intros _; split; [lia | eauto] | intros _; eauto]|].
      split; [split; [intros [e H]; discriminate
                     | intros [Hlt | [e H]]; [lia | discriminate]]|].
      intros e U H; discriminate.
    + split; [intros _; reflexivity|].
      split; [split; [intros [p H]; discriminate
                     | intros [_ (l & h & H)]; discriminate]|].
      split; [split; [intros _; right; eauto | intros _; eauto]|].
      intros e U H; injection H as <-; reflexivity.
Qed.

End BuiltPrior.

End Prior.

(** *** Concrete instances: scalar [low] and [high] *)

Definition scalar (x : R) : trailing unit := fun _ => x.

(** Two scalars are already in their common shape. *)
Definition broadcast_scalars (lo hi : R)
  : result (trailing unit * trailing unit) :=
  Ok (scalar lo, scalar hi).


Lemma init_raises_iff_too_small_witness :
  (exists msg, init broadcast_scalars 1 0 1 true true
               = Raise (ValueError msg))
  /\ init broadcast_scalars 2 0 1 true true
     = Ok (mk 2 (scalar 0) (scalar 1) true true).
Proof.
  split.
  - destruct (init_raises_iff_too_small broadcast_scalars 1 0 1 true true)
      as (H & _).
    eexists; apply H; lia.
  - destruct (init_raises_iff_too_small broadcast_scalars 2 0 1 true true)
      as (_ & H & _).
    rewrite H by lia; reflexivity.
Defined.

(** [jnp.broadcast_arrays] on two one-dimensional arrays: equal lengths are
    kept, a length-one array is stretched, anything else is refused with a
    [ValueError] (its message is cut short here). *)
Definition broadcast_rows (a b : list R)
  : result (trailing nat * trailing nat) :=
  if Nat.eqb (length a) (length b) then
    Ok (fun i => nth i a 0, fun i => nth i b 0)
  else if Nat.eqb (length a) 1 then Ok (fun _ => nth 0 a 0, fun i => nth i b 0)
  else if Nat.eqb (length b) 1 then Ok (fun i => nth i a 0, fun _ => nth 0 b 0)
  else Raise (ValueError "Incompatible shapes for broadcasting").

(** C5, counterexample: with [n = 3] and no fixed end point [n] is not too
    small, yet the constructor raises, because a [low] of two entries does
    not broadcast against a [high] of three. *)
Lemma init_raises_with_large_n_counterexample :
  ~ (3 < (if false then 1 else 0) + (if false then 1 else 0))%Z
  /\ (exists msg, init broadcast_rows 3 [0; 0] [1; 1; 1] false false
                  = Raise (ValueError msg))
  /\ ~ ((exists e, init broadcast_rows 3 [0; 0] [1; 1; 1] false false
                   = Raise e)
        <-> (3 < (if false then 1 else 0) + (if false then 1 else 0))%Z).
Proof.
  split; [lia|]. split; [eexists; reflexivity|].
  intros [H _].
  assert (H3 : (3 < 0 + 0)%Z) by (apply H; eexists; reflexivity).
  lia.
Qed.

(** A function that agrees with the log-gamma function at the positive
    integers: [ln ((k - 1)!)] at [k]. *)
Definition ln_fact_pred (x : R) : R := ln (INR (fact (Z.to_nat (up x - 2)))).

Lemma ln_fact_pred_spec (k : nat) : ln_fact_pred (INR k + 1) = ln (INR (fact k)).
Proof.
  unfold ln_fact_pred.
  assert (H : (Z.of_nat k + 2)%Z = up (INR k + 1)).
  { apply tech_up; rewrite plus_IZR, <- INR_IZR_INZ; lra. }
  rewrite <- H.
  replace (Z.of_nat k + 2 - 2)%Z with (Z.of_nat k) by lia.
  now rewrite Nat2Z.id.
Qed.

Lemma log_prob_closed_form_witness :
  (forall i,
     log_prob ln_fact_pred (mk 3 (scalar 0) (scalar 1) true true)
       [scalar 0; scalar (1 / 2); scalar 1] i
     = - ln (INR (fact (Z.to_nat (n_free_spec 3 true true))))
       - IZR (n_free_spec 3 true true) * ln (scalar 1 i - scalar 0 i))
  /\ (forall Y,
        log_prob ln_fact_pred (mk 3 (scalar 0) (scalar 1) true true) Y
        = log_prob ln_fact_pred (mk 3 (scalar 0) (scalar 1) true true)
            [scalar 0; scalar (1 / 2); scalar 1])
  /\ (3%Z = 3%Z -> true = true -> true = true ->
      forall i, scalar 0 i = 0 -> scalar 1 i = 1 ->
      log_prob ln_fact_pred (mk 3 (scalar 0) (scalar 1) true true)
        [scalar 0; scalar (1 / 2); scalar 1] i = 0).
Proof.
  apply (log_prob_closed_form broadcast_scalars ln_fact_pred 3 0 1 true true
           (mk 3 (scalar 0) (scalar 1) true true)).
  - exact ln_fact_pred_spec.
  - reflexivity.
Defined.

End ForcedIdentifiabilityFacts.

(** ** ForcedIdentifiability: what rounding does to the last free value *)

Module ForcedIdentifiabilityIEEEFacts.
Import ForcedIdentifiabilityIEEE.






End ForcedIdentifiabilityIEEEFacts.

(** ** Bernoulli: the threshold test is not inverted by a CDF *)

Module BernoulliFacts.
Import Bernoulli.

(** [inverse (forward u)] is the CDF at the sample, which is [1] below the
    threshold and [0] from the threshold on. *)
Lemma inverse_forward_two_valued (probs : R) (dist_cdf : Z -> R) (u : R) :
  (u < probs -> inverse dist_cdf (forward probs u) = dist_cdf 1%Z)
  /\ (~ u < probs -> inverse dist_cdf (forward probs u) = dist_cdf 0%Z).
Proof.
  unfold inverse, forward, quantile; destruct (Rlt_dec u probs);
    split; intros H; try reflexivity; contradiction.
Qed.

(** C1, counterexample: with [probs = 1/2] no CDF whatsoever makes
    [inverse (forward u)] return [u] to within [1/100] on all of [(0,1)]:
    [u = 1/8] and [u = 1/4] are both sent to the sample [1]. *)
Lemma bernoulli_roundtrip_counterexample :
  ~ (exists dist_cdf : Z -> R, forall u : R, 0 < u < 1 ->
       Rabs (inverse dist_cdf (forward (1 / 2) u) - u) <= 1 / 100).
Proof.
  intros [dist_cdf H].
  pose proof (H (1 / 8) ltac:(lra)) as H1.
  pose proof (H (1 / 4) ltac:(lra)) as H2.
  unfold inverse, forward, quantile in H1, H2.
  destruct (Rlt_dec (1 / 8) (1 / 2)) as [_ | n1]; [|lra].
  destruct (Rlt_dec (1 / 4) (1 / 2)) as [_ | n2]; [|lra].
  revert H1 H2; unfold Rabs.
  destruct (Rcase_abs (dist_cdf 1%Z - 1 / 8));
    destruct (Rcase_abs (dist_cdf 1%Z - 1 / 4)); lra.
Qed.

End BernoulliFacts.

(** ** The round-trip law *)

Module RoundTripLaw.
Import ForcedIdentifiabilityFacts.

(** C1 (amended): for a ForcedIdentifiability prior built by [__init__] with
    [low <> high] everywhere and every [U] in the unit cube of the base
    shape, [forward] succeeds and [inverse] maps its result back to [U];
    for Bernoulli, [inverse (forward u)] is the CDF at the sample [1] when
    [u < probs] and at the sample [0] otherwise, whatever [u] is. *)
Theorem roundtrip_law :
  (forall (I input : Type)
          (broadcast_arrays :
             input -> input ->
             result (ForcedIdentifiability.trailing I
                     * ForcedIdentifiability.trailing I))
          (m : Z) (lo hi : input) (fl fr : bool)
          (p : ForcedIdentifiability.t I)
          (U : list (ForcedIdentifiability.trailing I)),
     ForcedIdentifiability.init broadcast_arrays m lo hi fl fr = Ok p ->
     (forall i, ForcedIdentifiability.low p i
                <> ForcedIdentifiability.high p i) ->
     unit_cube p U ->
     exists X, ForcedIdentifiability.forward p U = Ok X
               /\ ForcedIdentifiability.inverse p X = Ok U)
  /\ (forall (probs : R) (dist_cdf : Z -> R) (u : R),
        (u < probs ->
         Bernoulli.inverse dist_cdf (Bernoulli.forward probs u) = dist_cdf 1%Z)
        /\ (~ u < probs ->
            Bernoulli.inverse dist_cdf (Bernoulli.forward probs u)
            = dist_cdf 0%Z)).
Proof.
  split.
  - intros I input broadcast_arrays m lo hi fl fr p U.
    apply built_cdf_quantile.
  - exact BernoulliFacts.inverse_forward_two_valued.
Qed.

Lemma roundtrip_law_witness :
  exists X,
    ForcedIdentifiability.forward
      (ForcedIdentifiability.mk 3 (scalar 0) (scalar 1) true false)
      [scalar (1 / 2); scalar (1 / 3)] = Ok X
    /\ ForcedIdentifiability.inverse
         (ForcedIdentifiability.mk 3 (scalar 0) (scalar 1) true false) X
       = Ok [scalar (1 / 2); scalar (1 / 3)].
Proof.
  apply (proj1 roundtrip_law unit R broadcast_scalars 3%Z 0 1 true false).
  - reflexivity.
  - intros i; unfold scalar; simpl; lra.
  - split; [reflexivity|].
    constructor; [intros i; unfold scalar; lra|].
    constructor; [intros i; unfold scalar; lra | constructor].
Defined.

End RoundTripLaw.

(** ** Beta: which quantile [__init__] selects *)

Module BetaFacts.
Import Beta.

(** A Python scalar equal to one. *)
Definition is_scalar_one (c : param) : Prop :=
  c = PyInt 1 \/ c = PyFloat 1.

(** A NumPy array all of whose entries are one. *)
Definition is_ndarray_of_ones (c : param) : Prop :=
  exists a, c = NdArray a /\ Forall (fun x => x = 1) a.

Definition kumaraswamy_case (c0 c1 : param) : Prop :=
  is_scalar_one c0 \/ is_scalar_one c1
  \/ is_ndarray_of_ones c0 \/ is_ndarray_of_ones c1.

Lemma req1_true (x : R) : req1 x = true <-> x = 1.
Proof. unfold req1; destruct (Req_dec_T x 1); split; congruence. Qed.

Lemma scalar_is_one_spec (c : param) :
  scalar_is_one c = true <-> is_scalar_one c.
Proof.
  unfold is_scalar_one; destruct c as [|z|r|a|a]; simpl;
    try (split; [discriminate | intros [H | H]; discriminate]).
  - rewrite Z.eqb_eq; split; [intros ->; auto | intros [H | H]; congruence].
  - rewrite req1_true; split; [intros ->; auto | intros [H | H]; congruence].
Qed.

Lemma ndarray_all_one_spec (c : param) :
  ndarray_all_one c = true <-> is_ndarray_of_ones c.
Proof.
  unfold is_ndarray_of_ones; destruct c as [|z|r|a|a]; simpl;
    try (split; [discriminate | intros (a' & H & _); discriminate]).
  rewrite forallb_forall; split.
  - intros H; exists a; split; [reflexivity|].
    apply Forall_forall; intros x Hx; apply req1_true; auto.
  - intros (a' & [= <-] & H) x Hx; apply req1_true.
    rewrite Forall_forall in H; auto.
Qed.

Lemma init_kumaraswamy_iff (c0 c1 : param) :
  (kumaraswamy_case c0 c1 -> init c0 c1 = Kumaraswamy c0 c1)
  /\ (~ kumaraswamy_case c0 c1 -> init c0 c1 = TfpBeta c0 c1).
Proof.
  unfold kumaraswamy_case, init.
  rewrite <- !scalar_is_one_spec, <- !ndarray_all_one_spec.
  destruct (scalar_is_one c0), (scalar_is_one c1),
    (ndarray_all_one c0), (ndarray_all_one c1);
    split; intros H; try reflexivity;
    try (exfalso; apply H; auto; fail);
    try (destruct H as [H | [H | [H | H]]]; discriminate).
Qed.

(** C2 (amended): [forward] is the Kumaraswamy quantile exactly when a
    concentration parameter is a Python scalar equal to one or a NumPy array
    whose entries are all one, and the general Beta quantile otherwise. *)
Theorem forward_kumaraswamy_iff_all_one
    (kumaraswamy_quantile beta_quantile : param -> param -> list R -> list R)
    (c0 c1 : param) (U : list R) :
  (kumaraswamy_case c0 c1 ->
   forward kumaraswamy_quantile beta_quantile (init c0 c1) U
   = kumaraswamy_quantile c0 c1 U)
  /\ (~ kumaraswamy_case c0 c1 ->
      forward kumaraswamy_quantile beta_quantile (init c0 c1) U
      = beta_quantile c0 c1 U).
Proof.
  destruct (init_kumaraswamy_iff c0 c1) as [Hk Hb].
  split; intros H; [rewrite (Hk H) | rewrite (Hb H)]; reflexivity.
Qed.

Lemma forward_kumaraswamy_iff_all_one_witness :
  forward (fun _ _ U => U) (fun _ _ U => map (fun u => u * u) U)
    (init (PyFloat 1) (PyFloat 2)) [1 / 2] = [1 / 2]
  /\ forward (fun _ _ U => U) (fun _ _ U => map (fun u => u * u) U)
       (init (PyFloat 2) (NdArray [1; 1])) [1 / 2] = [1 / 2]
  /\ forward (fun _ _ U => U) (fun _ _ U => map (fun u => u * u) U)
       (init (PyFloat 2) (PyFloat 3)) [1 / 2] = [1 / 2 * (1 / 2)].
Proof.
  split; [|split].
  - apply (forward_kumaraswamy_iff_all_one (fun _ _ U => U)
             (fun _ _ U => map (fun u => u * u) U) (PyFloat 1) (PyFloat 2)).
    left; right; reflexivity.
  - apply (forward_kumaraswamy_iff_all_one (fun _ _ U => U)
             (fun _ _ U => map (fun u => u * u) U)
             (PyFloat 2) (NdArray [1; 1])).
    right; right; right; exists [1; 1]; split; [reflexivity|].
    repeat constructor.
  - apply (forward_kumaraswamy_iff_all_one (fun _ _ U => U)
             (fun _ _ U => map (fun u => u * u) U) (PyFloat 2) (PyFloat 3)).
    intros [[H | H] | [[H | H] | [(a & H & _) | (a & H & _)]]];
      try discriminate; injection H; lra.
Defined.

(** C2, counterexample: [concentration0 = np.array([1., 2.])] has an entry
    that is exactly one, yet [__init__] stores the general Beta
    distribution and [forward] is its quantile at every entry. *)
Lemma beta_elementwise_counterexample :
  In 1 (entries (NdArray [1; 2]))
  /\ init (NdArray [1; 2]) (NdArray [3; 4])
     = TfpBeta (NdArray [1; 2]) (NdArray [3; 4])
  /\ (forall kq bq U,
        forward kq bq (init (NdArray [1; 2]) (NdArray [3; 4])) U
        = bq (NdArray [1; 2]) (NdArray [3; 4]) U).
Proof.
  assert (H : init (NdArray [1; 2]) (NdArray [3; 4])
              = TfpBeta (NdArray [1; 2]) (NdArray [3; 4])).
  { apply init_kumaraswamy_iff.
    intros [[H | H] | [[H | H] | [(a & [= <-] & H) | (a & [= <-] & H)]]];
      try discriminate.
    - inversion H as [|? ? _ H2]; inversion H2; lra.
    - inversion H; lra. }
  split; [simpl; auto|]. split; [exact H|].
  intros kq bq U; rewrite H; reflexivity.
Qed.

End BetaFacts.

(** ** Categorical: the unsupported inverse and the CDF lookup *)

Module CategoricalFacts.
Import Jnp JnpFacts Categorical.

(** C6: under [gumbel_max], [inverse] raises [NotImplementedError] for every
    [X] (as it does under any parametrisation other than [cdf]); under
    [cdf] it returns the distribution's CDF at [X]. *)
Theorem inverse_gumbel_max_not_implemented (dist_cdf : Z -> R) (X : Z) :
  inverse "gumbel_max" dist_cdf X = Raise NotImplementedError
  /\ inverse "cdf" dist_cdf X = Ok (dist_cdf X)
  /\ (forall parametrisation,
        (exists e, inverse parametrisation dist_cdf X = Raise e)
        <-> parametrisation <> "cdf"%string).
Proof.
  split; [reflexivity|]. split; [reflexivity|].
  intros parametrisation; unfold inverse.
  destruct (String.eqb_spec parametrisation "cdf") as [-> | Hne]; split.
  - intros [e H]; discriminate.
  - intros H; congruence.
  - intros _; exact Hne.
  - intros _; eexists; reflexivity.
Qed.

(** [i] is the left-most index of [a] whose entry is at least [v]. *)
Definition leftmost_at_least (a : list R) (v : R) (i : nat) : Prop :=
  (i < length a)%nat /\ v <= nth i a 0
  /\ forall j, (j < i)%nat -> nth j a 0 < v.

(** The categorical CDF at index [i]: the normalised partial sum of
    [exp(logits)]. *)
Definition discrete_cdf (logits : list R) (i : nat) : R :=
  sum (firstn (S i) (map exp logits)) / sum (map exp logits).

Lemma searchsorted_left_mono (a : list R) (v1 v2 : R) :
  v1 <= v2 -> (searchsorted_left a v1 <= searchsorted_left a v2)%nat.
Proof.
  intros Hv; induction a as [|x a IH]; simpl; [lia|].
  destruct (Rle_dec v1 x), (Rle_dec v2 x); try lia; lra.
Qed.

Lemma searchsorted_left_bound (a : list R) (v : R) :
  (searchsorted_left a v <= length a)%nat.
Proof. induction a as [|x a IH]; simpl; [lia | destruct (Rle_dec v x); lia]. Qed.

Lemma searchsorted_left_below (a : list R) (v : R) (j : nat) :
  (j < searchsorted_left a v)%nat -> nth j a 0 < v.
Proof.
  revert j; induction a as [|x a IH]; simpl; intros j Hj; [lia|].
  destruct (Rle_dec v x); [lia|].
  destruct j as [|j]; [lra | apply IH; lia].
Qed.

Lemma searchsorted_left_at (a : list R) (v : R) :
  (searchsorted_left a v < length a)%nat ->
  v <= nth (searchsorted_left a v) a 0.
Proof.
  induction a as [|x a IH]; simpl; intros H; [lia|].
  destruct (Rle_dec v x); [assumption | apply IH; lia].
Qed.

Lemma searchsorted_left_found (a : list R) (v : R) :
  a <> [] -> v <= last a 0 -> (searchsorted_left a v < length a)%nat.
Proof.
  induction a as [|x a IH]; [congruence|]; intros _ Hl; simpl.
  destruct (Rle_dec v x); [lia|].
  destruct a as [|y a']; [simpl in Hl; lra|].
  apply -> Nat.succ_lt_mono; apply IH; [discriminate | exact Hl].
Qed.

Lemma sum_firstn_pos (l : list R) (i : nat) :
  Forall (fun x => 0 < x) l -> l <> [] -> 0 < sum (firstn (S i) l).
Proof.
  intros H; revert i; induction H as [|x l Hx Hl IH]; intros i Hne;
    [congruence|]; simpl.
  destruct l as [|y l']; [destruct i; simpl; lra|].
  destruct i as [|i]; [simpl; lra|].
  specialize (IH i ltac:(discriminate)); simpl in *; lra.
Qed.

Lemma sum_pos (l : list R) :
  Forall (fun x => 0 < x) l -> l <> [] -> 0 < sum l.
Proof.
  intros H Hne.
  rewrite <- (firstn_all2 (n := S (length l)) l) by lia.
  now apply sum_firstn_pos.
Qed.

Lemma sum_firstn_mono (l : list R) (i : nat) :
  Forall (fun x => 0 < x) l ->
  sum (firstn i l) <= sum (firstn (S i) l).
Proof.
  intros H; revert i; induction H as [|x l Hx Hl IH]; intros i.
  - destruct i; simpl; lra.
  - destruct i as [|i]; [destruct l; simpl; lra|].
    specialize (IH i); simpl in *; lra.
Qed.

Lemma cumsum_from_nth (a : R) (l : list R) (i : nat) :
  (i < length l)%nat ->
  nth i (cumsum_from Rplus a l) 0 = a + sum (firstn (S i) l).
Proof.
  revert a i; induction l as [|x l IH]; intros a i Hi; simpl in *; [lia|].
  destruct i as [|i]; [simpl; lra|].
  rewrite IH by lia; simpl; lra.
Qed.

Lemma cumsum_nth (l : list R) (i : nat) :
  (i < length l)%nat -> nth i (cumsum Rplus l) 0 = sum (firstn (S i) l).
Proof.
  intros Hi; rewrite cumsum_as_from, cumsum_from_nth by assumption; lra.
Qed.

Lemma cumsum_from_last (a : R) (l : list R) :
  l <> [] -> last (cumsum_from Rplus a l) 0 = a + sum l.
Proof.
  revert a; induction l as [|x l IH]; intros a Hne; [congruence|].
  destruct l as [|y l']; [simpl; lra|].
  change (last (cumsum_from Rplus (a + x) (y :: l')) 0 = a + sum (x :: y :: l')).
  rewrite IH by discriminate; simpl; lra.
Qed.

Lemma cumsum_last (l : list R) : l <> [] -> last (cumsum Rplus l) 0 = sum l.
Proof.
  intros Hne; rewrite cumsum_as_from, cumsum_from_last by assumption; lra.
Qed.

Lemma last_map_ln (l : list R) : l <> [] -> last (map ln l) 0 = ln (last l 0).
Proof.
  induction l as [|x l IH]; [congruence|]; intros _.
  destruct l as [|y l']; [reflexivity|].
  change (last (map ln (y :: l')) 0 = ln (last (y :: l') 0)).
  apply IH; discriminate.
Qed.

Lemma exp_all_pos (logits : list R) : Forall (fun x => 0 < x) (map exp logits).
Proof. apply Forall_map, Forall_forall; intros; apply exp_pos. Qed.

Lemma normalised_length (logits : list R) :
  length (normalised_cum_logits logits) = length logits.
Proof.
  unfold normalised_cum_logits, cumulative_logsumexp.
  now rewrite !length_map, cumsum_length, length_map.
Qed.

(** Entry [i] of the normalised cumulative logits is the logarithm of the
    categorical CDF at [i]. *)
Lemma normalised_nth (logits : list R) (i : nat) :
  (i < length logits)%nat ->
  nth i (normalised_cum_logits logits) 0 = ln (discrete_cdf logits i).
Proof.
  intros Hi.
  assert (Hne : map exp logits <> []) by (destruct logits; simpl in *; [lia | discriminate]).
  assert (Hcne : cumsum Rplus (map exp logits) <> []).
  { intros E; apply (f_equal (@length R)) in E.
    rewrite cumsum_length, length_map in E; simpl in E; lia. }
  pose proof (sum_pos _ (exp_all_pos logits) Hne) as Hall.
  pose proof (sum_firstn_pos _ i (exp_all_pos logits) Hne) as Hpart.
  unfold normalised_cum_logits, cumulative_logsumexp, discrete_cdf.
  set (f := fun c => c - last (map ln (cumsum Rplus (map exp logits))) 0).
  rewrite (nth_indep _ 0 (f 0)) by
    now rewrite !length_map, cumsum_length, length_map.
  rewrite map_nth; unfold f.
  rewrite (nth_indep _ 0 (ln 0)) by
    now rewrite length_map, cumsum_length, length_map.
  rewrite map_nth, cumsum_nth by now rewrite length_map.
  rewrite last_map_ln, cumsum_last by assumption.
  unfold Rdiv; rewrite ln_mult, ln_Rinv; auto using Rinv_0_lt_compat; lra.
Qed.

Lemma last_as_nth (l : list R) : last l 0 = nth (length l - 1) l 0.
Proof.
  induction l as [|x l IH]; [reflexivity|].
  destruct l as [|y l']; [reflexivity|].
  change (last (x :: y :: l') 0) with (last (y :: l') 0); rewrite IH.
  simpl length.
  replace (S (S (length l')) - 1)%nat with (S (S (length l') - 1)) by lia.
  reflexivity.
Qed.

Lemma normalised_last (logits : list R) :
  logits <> [] -> last (normalised_cum_logits logits) 0 = 0.
Proof.
  intros Hne.
  assert (Hlen : (length logits - 1 < length logits)%nat)
    by (destruct logits; simpl; [congruence | lia]).
  assert (Hn : normalised_cum_logits logits <> []).
  { intros E; apply (f_equal (@length R)) in E.
    rewrite normalised_length in E; simpl in E; lia. }
  rewrite last_as_nth, normalised_length, normalised_nth by assumption.
  unfold discrete_cdf.
  rewrite firstn_all2 by (rewrite length_map; lia).
  assert (Hm : map exp logits <> []) by (destruct logits; [congruence | discriminate]).
  pose proof (sum_pos _ (exp_all_pos logits) Hm).
  unfold Rdiv; rewrite Rinv_r by lra; apply ln_1.
Qed.

(** [i] is the category whose CDF step contains [u]. *)
Definition cdf_bracket (logits : list R) (u : R) (i : nat) : Prop :=
  u <= discrete_cdf logits i
  /\ forall j, (j < i)%nat -> discrete_cdf logits j < u.

Lemma discrete_cdf_pos (logits : list R) (i : nat) :
  logits <> [] -> 0 < discrete_cdf logits i.
Proof.
  intros Hne.
  assert (Hm : map exp logits <> []) by (destruct logits; [congruence | discriminate]).
  pose proof (sum_pos _ (exp_all_pos logits) Hm).
  pose proof (sum_firstn_pos _ i (exp_all_pos logits) Hm).
  unfold discrete_cdf; apply Rdiv_lt_0_compat; assumption.
Qed.

Lemma forward_cdf_eq (logits : list R) (u : R) :
  forward "cdf" logits [u]
  = Ok (Some [Z.of_nat (searchsorted_left (normalised_cum_logits logits) (ln u))]).
Proof. reflexivity. Qed.

Lemma lookup_leftmost (logits : list R) (u : R) :
  logits <> [] -> 0 < u -> u < 1 ->
  let i := searchsorted_left (normalised_cum_logits logits) (ln u) in
  leftmost_at_least (normalised_cum_logits logits) (ln u) i
  /\ cdf_bracket logits u i.
Proof.
  intros Hne Hu0 Hu1 i.
  assert (Hn : normalised_cum_logits logits <> []).
  { intros E; apply (f_equal (@length R)) in E.
    rewrite normalised_length in E; destruct logits; simpl in E;
      [congruence | lia]. }
  assert (Hlt : ln u < 0) by (rewrite <- ln_1; now apply ln_increasing).
  assert (Hi : (i < length (normalised_cum_logits logits))%nat).
  { apply searchsorted_left_found; [assumption|].
    rewrite normalised_last by assumption; lra. }
  assert (Hleft : leftmost_at_least (normalised_cum_logits logits) (ln u) i).
  { split; [exact Hi|]. split.
    - now apply searchsorted_left_at.
    - intros j Hj; now apply searchsorted_left_below. }
  split; [exact Hleft|].
  destruct Hleft as (_ & Hat & Hbelow).
  rewrite normalised_length in Hi.
  split.
  - rewrite normalised_nth in Hat by assumption.
    pose proof (discrete_cdf_pos logits i Hne) as Hc.
    destruct Hat as [Hat | Hat].
    + left; now apply ln_lt_inv.
    + right; now apply ln_inv.
  - intros j Hj; specialize (Hbelow j Hj).
    rewrite normalised_nth in Hbelow by lia.
    apply ln_lt_inv; auto using discrete_cdf_pos.
Qed.

Lemma sum_firstn_le (l : list R) (i j : nat) :
  Forall (fun x => 0 < x) l -> (i <= j)%nat ->
  sum (firstn i l) <= sum (firstn j l).
Proof.
  intros Hl Hij; induction Hij as [|j Hij IH]; [lra|].
  pose proof (sum_firstn_mono l j Hl); lra.
Qed.

Lemma discrete_cdf_mono (logits : list R) (i j : nat) :
  logits <> [] -> (i <= j)%nat ->
  discrete_cdf logits i <= discrete_cdf logits j.
Proof.
  intros Hne Hij.
  assert (Hm : map exp logits <> []) by (destruct logits; [congruence | discriminate]).
  pose proof (sum_pos _ (exp_all_pos logits) Hm) as Hpos.
  pose proof (sum_firstn_le _ (S i) (S j) (exp_all_pos logits) ltac:(lia)).
  unfold discrete_cdf, Rdiv.
  apply Rmult_le_compat_r; [left; now apply Rinv_0_lt_compat | assumption].
Qed.

Lemma StronglySorted_by_index (l : list R) :
  (forall i j, (i <= j < length l)%nat -> nth i l 0 <= nth j l 0) ->
  StronglySorted Rle l.
Proof.
  induction l as [|x l IH]; intros H; constructor.
  - apply IH; intros i j Hij.
    apply (H (S i) (S j)); simpl; lia.
  - apply Forall_forall; intros y Hy.
    destruct (In_nth _ _ 0 Hy) as (j & Hj & <-).
    apply (H 0%nat (S j)); simpl; lia.
Qed.

(** The array handed to [searchsorted] is sorted, as that function
    requires. *)
Lemma normalised_sorted (logits : list R) :
  StronglySorted Rle (normalised_cum_logits logits).
Proof.
  apply StronglySorted_by_index; intros i j [Hij Hj].
  rewrite normalised_length in Hj.
  assert (Hne : logits <> []) by (destruct logits; simpl in *; [lia | discriminate]).
  rewrite !normalised_nth by lia.
  pose proof (discrete_cdf_pos logits i Hne).
  destruct (discrete_cdf_mono logits i j Hne Hij) as [Hlt | Heq].
  - left; now apply ln_increasing.
  - right; now rewrite Heq.
Qed.

(** C7: under the [cdf] parametrisation with a non-empty logits vector and
    [0 < u1 <= u2 < 1], [forward] returns category indices [i1 <= i2]; each
    is the left-most index whose normalised cumulative log-probability is
    at least the logarithm of the draw (in an array that is sorted), and
    it is the category whose step of the discrete CDF contains the draw. *)
Theorem forward_cdf_monotone_leftmost (logits : list R) (u1 u2 : R) :
  logits <> [] -> 0 < u1 -> u1 <= u2 -> u2 < 1 ->
  exists i1 i2 : nat,
    forward "cdf" logits [u1] = Ok (Some [Z.of_nat i1])
    /\ forward "cdf" logits [u2] = Ok (Some [Z.of_nat i2])
    /\ (i1 <= i2)%nat
    /\ StronglySorted Rle (normalised_cum_logits logits)
    /\ leftmost_at_least (normalised_cum_logits logits) (ln u1) i1
    /\ leftmost_at_least (normalised_cum_logits logits) (ln u2) i2
    /\ cdf_bracket logits u1 i1
    /\ cdf_bracket logits u2 i2.
Proof.
  intros Hne H0 H12 H1.
  exists (searchsorted_left (normalised_cum_logits logits) (ln u1)),
         (searchsorted_left (normalised_cum_logits logits) (ln u2)).
  destruct (lookup_leftmost logits u1 Hne ltac:(lra) ltac:(lra)) as [L1 B1].
  destruct (lookup_leftmost logits u2 Hne ltac:(lra) ltac:(lra)) as [L2 B2].
  repeat split; try apply forward_cdf_eq; try apply normalised_sorted;
    try apply L1; try apply L2; try apply B1; try apply B2.
  apply searchsorted_left_mono.
  destruct H12 as [H12 | ->]; [|lra].
  left; now apply ln_increasing.
Qed.

Lemma forward_cdf_monotone_leftmost_witness :
  exists i1 i2 : nat,
    forward "cdf" [0; 0] [1 / 4] = Ok (Some [Z.of_nat i1])
    /\ forward "cdf" [0; 0] [1 / 2] = Ok (Some [Z.of_nat i2])
    /\ (i1 <= i2)%nat
    /\ StronglySorted Rle (normalised_cum_logits [0; 0])
    /\ leftmost_at_least (normalised_cum_logits [0; 0]) (ln (1 / 4)) i1
    /\ leftmost_at_least (normalised_cum_logits [0; 0]) (ln (1 / 2)) i2
    /\ cdf_bracket [0; 0] (1 / 4) i1
    /\ cdf_bracket [0; 0] (1 / 2) i2.
Proof.
  apply (forward_cdf_monotone_leftmost [0; 0] (1 / 4) (1 / 2));
    [discriminate | lra | lra | lra].
Defined.

End CategoricalFacts.

(** ** Poisson: the fixed-length expand-then-bisect search *)

Module PoissonFacts.
Import Poisson.

(** The cast of a non-negative number: the integer part while it fits the
    signed integers of [bits] bits, their largest value beyond. *)
Lemma astype_int_spec (bits : Z) (x : R) :
  (0 < bits)%Z -> 0 <= x ->
  (0 <= astype_int bits x <= 2 ^ (bits - 1) - 1)%Z
  /\ IZR (astype_int bits x) <= x
  /\ (x < IZR (2 ^ (bits - 1)) -> x < IZR (astype_int bits x) + 1)
  /\ (IZR (2 ^ (bits - 1)) <= x ->
      astype_int bits x = (2 ^ (bits - 1) - 1)%Z).
Proof.
  intros Hb Hx; unfold astype_int.
  destruct (Rle_dec 0 x) as [_ | Hn]; [|contradiction].
  destruct (base_Int_part x) as [H1 H2].
  assert (Ht : (0 <= Int_part x)%Z).
  { assert (H : (-1 < Int_part x)%Z) by (apply lt_IZR; lra). lia. }
  assert (HM : (1 <= 2 ^ (bits - 1))%Z)
    by (change 1%Z with (2 ^ 0)%Z; apply Z.pow_le_mono_r; lia).
  set (M := (2 ^ (bits - 1))%Z) in *.
  set (t := Int_part x) in *.
  rewrite Z.max_r by lia.
  split; [lia|]. split.
  - apply Rle_trans with (IZR t); [apply IZR_le; lia | exact H1].
  - split.
    + intros Hlt.
      assert (Htm : (t < M)%Z) by (apply lt_IZR; lra).
      rewrite Z.min_r by lia; lra.
    + intros Hge.
      assert (Htm : (M < t + 1)%Z) by (apply lt_IZR; rewrite plus_IZR; lra).
      apply Z.min_l; lia.
Qed.

Section Run.
Variable igammac : R -> R -> R.
Variables U rate : R.

(** The rate after clamping: [jnp.maximum(rate, 1e-5)]. *)
Definition clamped : R := Rmax rate (1 / 100000).

(** One scan step on the carry. *)
Definition step (s : carry) : carry :=
  fst (fixed_point_update igammac U clamped s 0%nat).

(** The carry after [i] scan steps. *)
Definition bracket_after (i : nat) : carry :=
  Nat.iter i step (init_carry igammac clamped).

Definition lower (s : carry) : R := let '(a, _, _, _) := s in a.
Definition upper (s : carry) : R := let '(_, b, _, _) := s in b.
Definition f_upper (s : carry) : R := let '(_, _, _, f_b) := s in f_b.
Definition midpoint (s : carry) : R := 0.5 * (lower s + upper s).

(** The upper end already covers the target probability. *)
Definition bounded (s : carry) : Prop := f_upper s >= U.

(** A scan step that doubles the upper end and keeps the lower end. *)
Definition doubles (s s' : carry) : Prop :=
  lower s' = lower s /\ upper s' = upper s * 2.

(** A scan step that keeps one half of the bracket. *)
Definition halves (s s' : carry) : Prop :=
  (lower s' = lower s /\ upper s' = midpoint s)
  \/ (lower s' = midpoint s /\ upper s' = upper s).

Lemma scan_ignores_index (xs : list nat) (s : carry) :
  fst (scan (fixed_point_update igammac U clamped) s xs)
  = Nat.iter (length xs) step s
  /\ length (snd (scan (fixed_point_update igammac U clamped) s xs))
     = length xs.
Proof.
  revert s; induction xs as [|x xs IH]; intros s; [split; reflexivity|].
  simpl scan.
  change (fixed_point_update igammac U clamped s x)
    with (fixed_point_update igammac U clamped s 0%nat).
  destruct (fixed_point_update igammac U clamped s 0%nat) as [c y] eqn:E.
  assert (Hc : c = step s) by (unfold step; now rewrite E).
  specialize (IH c).
  destruct (scan (fixed_point_update igammac U clamped) c xs) as [c' ys].
  destruct IH as [IH1 IH2]; simpl fst in *; simpl snd in *.
  split; [|simpl; now rewrite IH2].
  rewrite IH1, Hc; simpl length.
  now rewrite Nat.iter_succ_r.
Qed.

Lemma step_unbounded (s : carry) : ~ bounded s -> doubles s (step s).
Proof.
  destruct s as [[[a b] fa] fb]; unfold bounded, doubles, step; simpl.
  intros H; destruct (Rge_dec fb U); [contradiction|].
  simpl; split; reflexivity.
Qed.

Lemma step_bounded (s : carry) :
  bounded s -> halves s (step s) /\ bounded (step s).
Proof.
  destruct s as [[[a b] fa] fb]; unfold bounded, halves, step, midpoint; simpl.
  intros H; destruct (Rge_dec fb U); [|contradiction].
  destruct (Rgt_dec (smooth_cdf igammac (0.5 * (a + b)) clamped) U)
    as [Hl | Hr]; simpl; split; auto; lra.
Qed.

Lemma bounded_dec (s : carry) : {bounded s} + {~ bounded s}.
Proof. unfold bounded; apply Rge_dec. Qed.

(** The steps split into a run of doublings followed by bisections. *)
Lemma phases (n : nat) :
  exists k, (k <= n)%nat
    /\ (forall i, (i < k)%nat -> ~ bounded (bracket_after i))
    /\ (forall i, (k <= i < n)%nat -> bounded (bracket_after i)).
Proof.
  induction n as [|n (k & Hk & Hlo & Hhi)].
  - exists 0%nat; repeat split; intros; lia.
  - destruct (Nat.eq_dec k n) as [-> | Hne].
    + destruct (bounded_dec (bracket_after n)) as [Hb | Hnb].
      * exists n; repeat split; auto.
        intros i Hi; replace i with n by lia; exact Hb.
      * exists (S n); repeat split; auto; [|intros; lia].
        intros i Hi; destruct (Nat.eq_dec i n) as [-> | ?];
          [exact Hnb | apply Hlo; lia].
    + exists k; repeat split; auto.
      intros i Hi; destruct (Nat.eq_dec i n) as [-> | ?]; [|apply Hhi; lia].
      destruct n as [|n']; [lia|].
      change (bracket_after (S n')) with (step (bracket_after n')).
      apply step_bounded, Hhi; lia.
Qed.

Lemma doubling_upper (k : nat) :
  (forall i, (i < k)%nat -> ~ bounded (bracket_after i)) ->
  lower (bracket_after k) = 0 /\ upper (bracket_after k) = clamped * 2 ^ k.
Proof.
  induction k as [|k IH]; intros H.
  - unfold bracket_after, init_carry; simpl; split; lra.
  - destruct IH as [IHl IHu]; [intros; apply H; lia|].
    change (bracket_after (S k)) with (step (bracket_after k)).
    destruct (step_unbounded (bracket_after k)) as [Hl Hu]; [apply H; lia|].
    rewrite Hl, Hu, IHl, IHu; simpl; split; lra.
Qed.

Lemma bisection_eq (n : nat) (unroll : bool) :
  (n = 0%nat -> unroll = false) ->
  exists trace,
    _poisson_quantile_bisection igammac U rate n unroll
    = Ok (midpoint (bracket_after n), trace)
    /\ length trace = n.
Proof.
  intros Hn.
  pose proof (scan_ignores_index (seq 0 n) (init_carry igammac clamped))
    as [Hc Hl].
  rewrite length_seq in Hc, Hl.
  unfold _poisson_quantile_bisection, lax_scan; fold clamped.
  assert (Hu : Nat.eqb (if unroll then n else 1%nat) 0 = false).
  { destruct unroll; [|reflexivity].
    apply Nat.eqb_neq; intros E; specialize (Hn E); discriminate. }
  rewrite Hu; cbn [bind].
  unfold bracket_after; rewrite <- Hc.
  destruct (scan (fixed_point_update igammac U clamped)
              (init_carry igammac clamped) (seq 0 n))
    as [[[[a b] fa] fb] xs].
  exists xs; split; [reflexivity | exact Hl].
Qed.

(** Unrolling all of no steps is refused by the scan. *)
Lemma bisection_raises :
  exists e, _poisson_quantile_bisection igammac U rate 0 true = Raise e.
Proof. eexists; reflexivity. Qed.

Lemma forward_eq (bits : Z) :
  forward igammac bits rate U
  = Ok (astype_int bits (midpoint (bracket_after max_iter_default))).
Proof.
  unfold forward, _poisson_quantile.
  destruct (bisection_eq max_iter_default false) as (trace & -> & _);
    reflexivity.
Qed.

Lemma clamped_positive : 0 < clamped.
Proof. unfold clamped; pose proof (Rmax_r rate (1 / 100000)); lra. Qed.

(** The bracket is a proper interval of the non-negative reals, and the
    value carried along for its upper end is the smooth CDF there. *)
Definition cached (s : carry) : Prop :=
  0 <= lower s < upper s
  /\ f_upper s = smooth_cdf igammac (upper s) clamped.

Lemma step_cached (s : carry) : cached s -> cached (step s).
Proof.
  destruct s as [[[a b] fa] fb]; unfold cached, step; simpl.
  intros [Hab Hfb].
  destruct (Rge_dec fb U) as [Hb | Hnb].
  - destruct (Rgt_dec (smooth_cdf igammac (0.5 * (a + b)) clamped) U);
      simpl; (split; [lra|]); [reflexivity | exact Hfb].
  - simpl; split; [lra | reflexivity].
Qed.

Lemma bracket_cached (n : nat) : cached (bracket_after n).
Proof.
  induction n as [|n IH].
  - pose proof clamped_positive.
    unfold cached, bracket_after, init_carry; simpl; split; [lra | reflexivity].
  - change (bracket_after (S n)) with (step (bracket_after n)).
    now apply step_cached.
Qed.

(** A bisection step keeps the half on which the smooth CDF crosses [U],
    judged by its value at the midpoint. *)
Lemma step_bisects (s : carry) :
  bounded s ->
  (smooth_cdf igammac (midpoint s) clamped > U ->
   lower (step s) = lower s /\ upper (step s) = midpoint s)
  /\ (smooth_cdf igammac (midpoint s) clamped <= U ->
      lower (step s) = midpoint s /\ upper (step s) = upper s).
Proof.
  destruct s as [[[a b] fa] fb]; unfold bounded, step, midpoint; simpl.
  intros H; destruct (Rge_dec fb U); [|contradiction].
  destruct (Rgt_dec (smooth_cdf igammac (0.5 * (a + b)) clamped) U)
    as [Hl | Hr]; simpl; split; intros Hc; try lra; split; reflexivity.
Qed.

Lemma phase_steps (n : nat) :
  exists k, (k <= n)%nat
    /\ (forall i, (i < k)%nat ->
          ~ bounded (bracket_after i)
          /\ upper (bracket_after i) = clamped * 2 ^ i
          /\ doubles (bracket_after i) (bracket_after (S i)))
    /\ (forall i, (k <= i < n)%nat ->
          bounded (bracket_after i)
          /\ halves (bracket_after i) (bracket_after (S i))).
Proof.
  destruct (phases n) as (k & Hk & Hlo & Hhi).
  exists k; split; [exact Hk|]. split.
  - intros i Hi. split; [apply Hlo; exact Hi|]. split.
    + apply doubling_upper; intros j Hj; apply Hlo; lia.
    + change (bracket_after (S i)) with (step (bracket_after i)).
      apply step_unbounded, Hlo; exact Hi.
  - intros i Hi. split; [apply Hhi; exact Hi|].
    change (bracket_after (S i)) with (step (bracket_after i)).
    apply step_bounded, Hhi; exact Hi.
Qed.

End Run.

(** C8: for a scalar rate and any [U], [forward] succeeds after exactly 15
    scan steps whatever the inputs and whatever [unroll]; the search starts
    from the bracket [[0, rate]]; some first [k <= 15] steps double the
    upper end because the regularised incomplete gamma function there is
    still below [U], and every later step, the upper end now covering [U],
    keeps the half of the bracket chosen by the value of that function at
    the midpoint; the result is the midpoint of the final bracket cut down
    to an integer of [int_type] (its integer part, or the largest integer of
    the type when the midpoint lies beyond it). *)
Theorem poisson_forward_fixed_15_steps
    (igammac : R -> R -> R) (bits : Z) (U rate : R) :
  (0 < bits)%Z ->
  let cdf x := igammac (x + 1) (Rmax rate (1 / 100000)) in
  let s := bracket_after igammac U rate in
  max_iter_default = 15%nat
  /\ (forall unroll, exists trace,
        _poisson_quantile_bisection igammac U rate 15 unroll
        = Ok (midpoint (s 15%nat), trace)
        /\ length trace = 15%nat)
  /\ (lower (s 0%nat) = 0 /\ upper (s 0%nat) = Rmax rate (1 / 100000))
  /\ (exists k, (k <= 15)%nat
      /\ (forall i, (i < k)%nat ->
            cdf (upper (s i)) < U
            /\ lower (s (S i)) = lower (s i)
            /\ upper (s (S i)) = upper (s i) * 2)
      /\ (forall i, (k <= i < 15)%nat ->
            U <= cdf (upper (s i))
            /\ (cdf (midpoint (s i)) > U ->
                lower (s (S i)) = lower (s i)
                /\ upper (s (S i)) = midpoint (s i))
            /\ (cdf (midpoint (s i)) <= U ->
                lower (s (S i)) = midpoint (s i)
                /\ upper (s (S i)) = upper (s i))))
  /\ (exists z, forward igammac bits rate U = Ok z
      /\ (0 <= z <= 2 ^ (bits - 1) - 1)%Z
      /\ (midpoint (s 15%nat) < IZR (2 ^ (bits - 1)) ->
          IZR z <= midpoint (s 15%nat) < IZR z + 1)
      /\ (IZR (2 ^ (bits - 1)) <= midpoint (s 15%nat) ->
          z = (2 ^ (bits - 1) - 1)%Z)).
Proof.
  intros Hbits cdf s.
  split; [reflexivity|]. split.
  { intros unroll.
    apply (bisection_eq igammac U rate 15 unroll); discriminate. }
  split; [split; reflexivity|]. split.
  - destruct (phases igammac U rate 15) as (k & Hk & Hlo & Hhi).
    exists k; split; [exact Hk|]. split.
    + intros i Hi.
      destruct (bracket_cached igammac U rate i) as [_ Hf].
      pose proof (Hlo i Hi) as Hnb; unfold bounded in Hnb; rewrite Hf in Hnb.
      split; [unfold cdf, s; unfold smooth_cdf, clamped in Hnb; lra|].
      change (s (S i)) with (step igammac U rate (s i)).
      apply (step_unbounded igammac U rate), Hlo; exact Hi.
    + intros i Hi.
      destruct (bracket_cached igammac U rate i) as [_ Hf].
      pose proof (Hhi i Hi) as Hb.
      split.
      * unfold bounded in Hb; rewrite Hf in Hb.
        unfold cdf, s; unfold smooth_cdf, clamped in Hb; lra.
      * change (s (S i)) with (step igammac U rate (s i)).
        exact (step_bisects igammac U rate (s i) Hb).
  - exists (astype_int bits (midpoint (s 15%nat))).
    split; [exact (forward_eq igammac U rate bits)|].
    destruct (bracket_cached igammac U rate 15) as [Hlu _]; fold s in Hlu.
    assert (Hm : 0 <= midpoint (s 15%nat)) by (unfold midpoint; lra).
    destruct (astype_int_spec bits _ Hbits Hm) as (Hr & Hle & Hlt & Hsat).
    split; [exact Hr|]. split; [|exact Hsat].
    intros H; split; [exact Hle | exact (Hlt H)].
Qed.

(** A run of C8 with 32-bit integers and the identity on the shape
    argument in place of the incomplete gamma function. *)
Lemma poisson_forward_fixed_15_steps_witness :
  exists z, forward (fun a _ => a) 32 1 (3 / 2) = Ok z
    /\ (0 <= z <= 2 ^ (32 - 1) - 1)%Z.
Proof.
  destruct (poisson_forward_fixed_15_steps (fun a _ => a) 32 (3 / 2) 1)
    as (_ & _ & _ & _ & z & Hz & Hr & _); [lia|].
  exists z; split; [exact Hz | exact Hr].
Defined.

End PoissonFacts.

(** ** The serialisation bridge: what a round trip returns *)

Module NamedtupleUtilsFacts.
Import NamedtupleUtils.

(** Induction over a value and everything nested in it. *)
Section Induction.
Variable P : pyobj -> Prop.
Hypothesis HNone : P PNone.
Hypothesis HScalar : forall x, P (PScalar x).
Hypothesis HStr : forall s, P (PStr s).
Hypothesis HList : forall l, Forall P l -> P (PList l).
Hypothesis HTuple : forall l, Forall P l -> P (PTuple l).
Hypothesis HDict :
  forall items, Forall (fun kv => P (snd kv)) items -> P (PDict items).
Hypothesis HNamedTuple :
  forall cls values, Forall P values -> P (PNamedTuple cls values).
Hypothesis HNdArray : forall dtype shape data, P (PNdArray dtype shape data).

Fixpoint pyobj_induction (v : pyobj) : P v :=
  let all :=
    fix all (l : list pyobj) : Forall P l :=
      match l with
      | [] => Forall_nil P
      | x :: t => Forall_cons x (pyobj_induction x) (all t)
      end in
  match v with
  | PNone => HNone
  | PScalar x => HScalar x
  | PStr s => HStr s
  | PList l => HList l (all l)
  | PTuple l => HTuple l (all l)
  | PDict items =>
      HDict items
        ((fix all_items (d : list (string * pyobj))
            : Forall (fun kv => P (snd kv)) d :=
            match d with
            | [] => Forall_nil _
            | kv :: t =>
                Forall_cons (P := fun kv => P (snd kv)) kv
                  (pyobj_induction (snd kv)) (all_items t)
            end) items)
  | PNamedTuple cls values => HNamedTuple cls values (all values)
  | PNdArray dtype shape data => HNdArray dtype shape data
  end.
End Induction.

(** What a round trip turns a value into: every plain tuple becomes a list
    of the same (round-tripped) elements, everything else is kept. *)
Fixpoint tuples_to_lists (v : pyobj) : pyobj :=
  match v with
  | PList l => PList (map tuples_to_lists l)
  | PTuple l => PList (map tuples_to_lists l)
  | PDict items => PDict (map (fun kv => (fst kv, tuples_to_lists (snd kv))) items)
  | PNamedTuple cls values => PNamedTuple cls (map tuples_to_lists values)
  | _ => v
  end.

(** No plain tuple occurs anywhere in the value. *)
Fixpoint tuple_free (v : pyobj) : bool :=
  match v with
  | PList l => forallb tuple_free l
  | PTuple _ => false
  | PDict items => forallb (fun kv => tuple_free (snd kv)) items
  | PNamedTuple _ values => forallb tuple_free values
  | _ => true
  end.

(** Every zero-length axis of the shape is its last axis. *)
Fixpoint shape_recoverable (shape : list nat) : Prop :=
  match shape with
  | [] => True
  | d :: rest => (d = 0%nat -> rest = []) /\ shape_recoverable rest
  end.

(** The dictionary is not one of the two tagged forms. *)
Definition untagged (items : list (string * pyobj)) : Prop :=
  has_type_tag items "__namedtuple__" = false
  /\ has_type_tag items "__ndarray__" = false.

(** The inner loop of [of_nested], on its own. *)
Section Gather.
Variable sh : list nat.

Fixpoint gather (items : list pyobj) : result (list scalar) :=
  match items with
  | [] => Ok []
  | it :: rest =>
      '(sh', xs) <- of_nested it ;;
      ys <- gather rest ;;
      if shape_eqb sh' sh then Ok (xs ++ ys)
      else Raise (ValueError "inhomogeneous shape")
  end.
End Gather.

Lemma of_nested_cons (first : pyobj) (l : list pyobj) :
  of_nested (PList (first :: l))
  = ('(sh, _) <- of_nested first ;;
     data <- gather sh (first :: l) ;;
     Ok (length (first :: l) :: sh, data)).
Proof. reflexivity. Qed.

Lemma shape_eqb_refl (sh : list nat) : shape_eqb sh sh = true.
Proof. unfold shape_eqb; destruct (list_eq_dec Nat.eq_dec sh sh); congruence. Qed.

Lemma chunks_length (d size : nat) (data : list scalar) :
  length (chunks d size data) = d.
Proof. revert data; induction d; intros; simpl; auto. Qed.

Lemma chunks_concat (d size : nat) (data : list scalar) :
  length data = (d * size)%nat -> concat (chunks d size data) = data.
Proof.
  revert data; induction d as [|d IH]; intros data H; simpl in *.
  - destruct data; [reflexivity | discriminate].
  - rewrite IH; [apply firstn_skipn|]. rewrite length_skipn; lia.
Qed.

Lemma chunks_sizes (d size : nat) (data : list scalar) :
  length data = (d * size)%nat ->
  Forall (fun c => length c = size) (chunks d size data).
Proof.
  revert data; induction d as [|d IH]; intros data H; simpl in *;
    constructor.
  - rewrite length_firstn; lia.
  - apply IH; rewrite length_skipn; lia.
Qed.

Lemma gather_tolist (rest : list nat) (cs : list (list scalar)) :
  Forall (fun c => of_nested (tolist rest c) = Ok (rest, c)) cs ->
  gather rest (map (tolist rest) cs) = Ok (concat cs).
Proof.
  induction 1 as [|c cs Hc Hcs IH]; [reflexivity|].
  cbn [map gather concat]; rewrite Hc, IH; simpl.
  now rewrite shape_eqb_refl.
Qed.

(** [np.array] reads back the shape and the entries that [tolist] wrote. *)
Lemma of_nested_tolist (shape : list nat) (data : list scalar) :
  length data = prod_shape shape -> shape_recoverable shape ->
  of_nested (tolist shape data) = Ok (shape, data).
Proof.
  revert data; induction shape as [|d rest IH]; intros data Hlen Hrec.
  - destruct data as [|x [|y data]]; simpl in Hlen; try discriminate.
    reflexivity.
  - destruct Hrec as [Hz Hrec]; cbn [tolist].
    change (prod_shape (d :: rest)) with (d * prod_shape rest)%nat in Hlen.
    assert (Hall : Forall (fun c => of_nested (tolist rest c) = Ok (rest, c))
                     (chunks d (prod_shape rest) data)).
    { eapply Forall_impl; [|apply chunks_sizes; exact Hlen].
      intros c Hc; apply IH; [exact Hc | exact Hrec]. }
    pose proof (chunks_length d (prod_shape rest) data) as Hd.
    pose proof (chunks_concat d (prod_shape rest) data Hlen) as Hcat.
    destruct (chunks d (prod_shape rest) data) as [|c cs] eqn:E.
    + simpl in Hd; subst d; rewrite (Hz eq_refl).
      destruct data; [reflexivity | discriminate].
    + cbn [map]; rewrite of_nested_cons.
      pose proof (Forall_inv Hall) as Hc; cbv beta in Hc.
      rewrite Hc; cbn [bind].
      change (tolist rest c :: map (tolist rest) cs)
        with (map (tolist rest) (c :: cs)).
      rewrite gather_tolist by exact Hall; cbn [bind].
      now rewrite length_map, Hd, Hcat.
Qed.

Section Process.
Variable import_module : string -> option (string -> option pyclass).
Variable dtype_known : string -> bool.
Variable astype : string -> scalar -> scalar.

(** The class is found again under its own path, and has distinct fields. *)
Definition resolvable (cls : pyclass) : Prop :=
  resolve import_module (class_path cls) = Ok cls /\ NoDup (cfields cls).

(** The array has as many entries as its shape says, of its own dtype,
    under a dtype name that is read back, and a shape that nested lists
    determine. *)
Definition array_ok (dtype : string) (shape : list nat) (data : list scalar)
  : Prop :=
  dtype_known dtype = true
  /\ Forall (fun x => astype dtype x = x) data
  /\ length data = prod_shape shape
  /\ shape_recoverable shape.

#[local] Unset Elimination Schemes.

(** The values on which the bridge is defined without loss. *)
Inductive round_trippable : pyobj -> Prop :=
| rt_none : round_trippable PNone
| rt_scalar x : round_trippable (PScalar x)
| rt_str s : round_trippable (PStr s)
| rt_list l : Forall round_trippable l -> round_trippable (PList l)
| rt_tuple l : Forall round_trippable l -> round_trippable (PTuple l)
| rt_dict items :
    untagged items ->
    Forall (fun kv => round_trippable (snd kv)) items ->
    round_trippable (PDict items)
| rt_namedtuple cls values :
    resolvable cls ->
    length values = length (cfields cls) ->
    Forall round_trippable values ->
    round_trippable (PNamedTuple cls values)
| rt_ndarray dtype shape data :
    array_ok dtype shape data ->
    round_trippable (PNdArray dtype shape data).

#[local] Set Elimination Schemes.

Local Abbreviation deserialise :=
  (deserialise_namedtuple import_module dtype_known astype).

(** The two comprehensions of [deserialise_namedtuple], on their own. *)
Fixpoint each (l : list pyobj) : result (list pyobj) :=
  match l with
  | [] => Ok []
  | v :: rest =>
      v' <- deserialise v ;;
      rest' <- each rest ;;
      Ok (v' :: rest')
  end.

Fixpoint each_value (items : list (string * pyobj))
  : result (list (string * pyobj)) :=
  match items with
  | [] => Ok []
  | (k, v) :: rest =>
      v' <- deserialise v ;;
      rest' <- each_value rest ;;
      Ok ((k, v') :: rest')
  end.

Lemma deserialise_list (l : list pyobj) :
  deserialise (PList l) = (l' <- each l ;; Ok (PList l')).
Proof. reflexivity. Qed.

(** The search for ['__data__'] in a dictionary tagged as a named tuple. *)
Section DataOf.
Variable class_ : pyclass.

Fixpoint data_of (its : list (string * pyobj)) : result pyobj :=
  match its with
  | [] => Raise (KeyError "__data__")
  | (k, v) :: rest =>
      if String.eqb k "__data__" then
        match v with
        | PDict fields =>
            kwargs <- each_value fields ;;
            construct class_ kwargs
        | _ => Raise (AttributeError "items")
        end
      else data_of rest
  end.
End DataOf.

Lemma deserialise_dict (items : list (string * pyobj)) :
  deserialise (PDict items)
  = if has_type_tag items "__namedtuple__" then
      class_path <- getitem items "__class__" ;;
      match class_path with
      | PStr class_path =>
          class_ <- resolve import_module class_path ;;
          data_of class_ items
      | _ => Raise (AttributeError "rsplit")
      end
    else if has_type_tag items "__ndarray__" then
      deserialise_ndarray dtype_known astype items
    else
      items' <- each_value items ;;
      Ok (PDict items').
Proof. reflexivity. Qed.

Lemma deserialise_untagged (items : list (string * pyobj)) :
  untagged items ->
  deserialise (PDict items) = (items' <- each_value items ;; Ok (PDict items')).
Proof. intros [H1 H2]; now rewrite deserialise_dict, H1, H2. Qed.

Lemma deserialise_tagged_namedtuple
    (path : string) (fields : list (string * pyobj)) :
  deserialise (PDict [("type"%string, PStr "__namedtuple__");
                      ("__class__"%string, PStr path);
                      ("__data__"%string, PDict fields)])
  = (class_ <- resolve import_module path ;;
     kwargs <- each_value fields ;;
     construct class_ kwargs).
Proof. reflexivity. Qed.

Lemma deserialise_tagged_ndarray (dtype : string) (data : pyobj) :
  deserialise (PDict [("type"%string, PStr "__ndarray__");
                      ("__dtype__"%string, PStr dtype);
                      ("__data__"%string, data)])
  = np_array dtype_known astype data dtype.
Proof. reflexivity. Qed.

Lemma each_map (g h : pyobj -> pyobj) (l : list pyobj) :
  Forall (fun x => deserialise (g x) = Ok (h x)) l ->
  each (map g l) = Ok (map h l).
Proof.
  induction 1 as [|x l Hx Hl IH]; [reflexivity|].
  cbn [map each]; rewrite Hx, IH; reflexivity.
Qed.

Lemma each_value_map (g h : pyobj -> pyobj) (items : list (string * pyobj)) :
  Forall (fun kv => deserialise (g (snd kv)) = Ok (h (snd kv))) items ->
  each_value (map (fun kv => (fst kv, g (snd kv))) items)
  = Ok (map (fun kv => (fst kv, h (snd kv))) items).
Proof.
  induction 1 as [|[k v] items Hx Hl IH]; [reflexivity|].
  cbn [map each_value fst snd] in *; rewrite Hx, IH; reflexivity.
Qed.

Lemma each_value_combine (g h : pyobj -> pyobj) (fields : list string)
    (values : list pyobj) :
  Forall (fun x => deserialise (g x) = Ok (h x)) values ->
  each_value (combine fields (map g values))
  = Ok (combine fields (map h values)).
Proof.
  intros H; revert fields; induction H as [|x l Hx Hl IH]; intros fields.
  - destruct fields; reflexivity.
  - destruct fields as [|f fields]; [reflexivity|].
    cbn [map combine each_value]; rewrite Hx, IH; reflexivity.
Qed.

Lemma eq_str_serialise (v : pyobj) (tag : string) :
  eq_str (serialise_namedtuple v) tag = eq_str v tag.
Proof. destruct v; reflexivity. Qed.

Lemma has_type_tag_serialise (items : list (string * pyobj)) (tag : string) :
  has_type_tag (map (fun kv => (fst kv, serialise_namedtuple (snd kv))) items) tag
  = has_type_tag items tag.
Proof.
  unfold has_type_tag.
  induction items as [|[k v] items IH]; [reflexivity|].
  cbn [map lookup fst snd].
  destruct (String.eqb k "type"); [apply eq_str_serialise | exact IH].
Qed.

Lemma pick_fields_skip (fields : list string) (f : string) (v : pyobj)
    (kwargs : list (string * pyobj)) :
  ~ In f fields ->
  pick_fields fields ((f, v) :: kwargs) = pick_fields fields kwargs.
Proof.
  induction fields as [|g fields IH]; intros Hnin; [reflexivity|].
  cbn [pick_fields lookup].
  destruct (String.eqb_spec f g) as [-> | Hne].
  - exfalso; apply Hnin; left; reflexivity.
  - rewrite IH; [reflexivity|]. intros Hin; apply Hnin; right; exact Hin.
Qed.

Lemma pick_fields_combine (fields : list string) (vs : list pyobj) :
  NoDup fields -> length vs = length fields ->
  pick_fields fields (combine fields vs) = Some vs.
Proof.
  intros Hnd; revert vs; induction Hnd as [|f fields Hnin Hnd IH];
    intros [|v vs] Hlen; simpl in Hlen; try discriminate; [reflexivity|].
  cbn [combine pick_fields lookup].
  rewrite String.eqb_refl, pick_fields_skip, IH by (auto; lia).
  reflexivity.
Qed.

Lemma keys_of_combine (fields : list string) (vs : list pyobj) :
  forallb (fun kv => mem_str (fst kv) fields) (combine fields vs) = true.
Proof.
  apply forallb_forall; intros [k v] Hin; apply in_combine_l in Hin.
  unfold mem_str; apply existsb_exists; exists k; split;
    [exact Hin | apply String.eqb_refl].
Qed.

Lemma construct_combine (cls : pyclass) (vs : list pyobj) :
  NoDup (cfields cls) -> length vs = length (cfields cls) ->
  construct cls (combine (cfields cls) vs) = Ok (PNamedTuple cls vs).
Proof.
  intros Hnd Hlen; unfold construct.
  now rewrite keys_of_combine, pick_fields_combine.
Qed.

Lemma Forall_modus_ponens {A : Type} (P Q : A -> Prop) (l : list A) :
  Forall (fun x => P x -> Q x) l -> Forall P l -> Forall Q l.
Proof.
  induction 1 as [|x l Hx Hl IH]; intros HP; [constructor|].
  inversion HP; subst; constructor; auto.
Qed.

Lemma forallb_map_compose {A B : Type} (f : B -> bool) (g : A -> B)
    (l : list A) :
  forallb f (map g l) = forallb (fun x => f (g x)) l.
Proof. induction l as [|x l IH]; simpl; [reflexivity | now rewrite IH]. Qed.

(** The bridge sends every value it handles without loss to the same value
    with its plain tuples turned into lists. *)
Lemma roundtrip_tuples_to_lists (v : pyobj) :
  round_trippable v ->
  deserialise (serialise_namedtuple v) = Ok (tuples_to_lists v).
Proof.
  induction v as [| x | s | l IH | l IH | items IH | cls values IH
                  | dtype shape data] using pyobj_induction;
    intros Hrt; inversion Hrt as
      [ | | | ? Hall | ? Hall | ? Hun Hall | ? ? [Hres Hnd] Hlen Hall
        | ? ? ? (Hk & Hcast & Hlen & Hrec)]; subst;
    cbn [serialise_namedtuple tuples_to_lists]; try reflexivity.
  - rewrite deserialise_list,
      (each_map serialise_namedtuple tuples_to_lists); [reflexivity|].
    exact (Forall_modus_ponens _ _ _ IH Hall).
  - rewrite deserialise_list,
      (each_map serialise_namedtuple tuples_to_lists); [reflexivity|].
    exact (Forall_modus_ponens _ _ _ IH Hall).
  - rewrite deserialise_untagged.
    + rewrite (each_value_map serialise_namedtuple tuples_to_lists);
        [reflexivity|].
      exact (Forall_modus_ponens _ _ _ IH Hall).
    + destruct Hun; split; now rewrite has_type_tag_serialise.
  - rewrite deserialise_tagged_namedtuple, Hres; cbn [bind].
    rewrite (each_value_combine serialise_namedtuple tuples_to_lists)
      by exact (Forall_modus_ponens _ _ _ IH Hall).
    cbn [bind]; apply construct_combine; [exact Hnd|].
    now rewrite length_map.
  - unfold serialise_ndarray; rewrite deserialise_tagged_ndarray.
    unfold np_array; rewrite Hk, of_nested_tolist by assumption; cbn [bind].
    do 2 f_equal. rewrite <- (map_id data) at 2.
    apply map_ext_in; intros x Hx.
    rewrite Forall_forall in Hcast; auto.
Qed.

Lemma tuples_to_lists_tuple_free (v : pyobj) :
  tuple_free v = true -> tuples_to_lists v = v.
Proof.
  induction v as [| x | s | l IH | l IH | items IH | cls values IH
                  | dtype shape data] using pyobj_induction;
    cbn [tuple_free tuples_to_lists]; intros H; try reflexivity;
    try discriminate.
  - f_equal; rewrite <- (map_id l) at 2; apply map_ext_in; intros x Hx.
    rewrite Forall_forall in IH; rewrite forallb_forall in H; auto.
  - f_equal; rewrite <- (map_id items) at 2; apply map_ext_in.
    intros [k x] Hx; rewrite Forall_forall in IH; rewrite forallb_forall in H.
    cbn [fst snd]; f_equal; apply (IH (k, x) Hx), (H (k, x) Hx).
  - f_equal; rewrite <- (map_id values) at 2; apply map_ext_in; intros x Hx.
    rewrite Forall_forall in IH; rewrite forallb_forall in H; auto.
Qed.

Lemma tuples_to_lists_is_tuple_free (v : pyobj) :
  tuple_free (tuples_to_lists v) = true.
Proof.
  induction v as [| x | s | l IH | l IH | items IH | cls values IH
                  | dtype shape data] using pyobj_induction;
    cbn [tuple_free tuples_to_lists]; try reflexivity;
    rewrite forallb_map_compose; apply forallb_forall; intros x Hx;
    rewrite Forall_forall in IH; cbn [snd]; auto.
Qed.



(** *** Whatever is deserialised contains no plain tuple *)












(** C9 (amended): on a value without plain tuples whose named-tuple classes
    resolve to themselves, whose dictionaries carry no ['type'] entry equal
    to one of the two tags, and whose arrays have a dtype name that is read
    back and no zero-length axis before the last one,
    [deserialise_namedtuple (serialise_namedtuple value)] returns the value
    itself. *)
Theorem roundtrip_restores_value (v : pyobj) :
  round_trippable v -> tuple_free v = true ->
  deserialise (serialise_namedtuple v) = Ok v.
Proof.
  intros Hrt Htf.
  rewrite roundtrip_tuples_to_lists by exact Hrt.
  now rewrite tuples_to_lists_tuple_free.
Qed.


End Process.

(** *** A concrete process and concrete values *)

Definition Point : pyclass := mkclass "geometry.shapes" "Point" ["x"; "y"]%string.

(** A process in which [geometry.shapes.Point] can be imported. *)
Definition sample_import (module_name : string)
  : option (string -> option pyclass) :=
  if String.eqb module_name "geometry.shapes" then
    Some (fun class_name =>
            if String.eqb class_name "Point" then Some Point else None)
  else None.

Definition every_dtype (_ : string) : bool := true.
Definition same_scalar (_ : string) (x : scalar) : scalar := x.

(** A record holding an array and a map with a list. *)
Definition sample_record : pyobj :=
  PNamedTuple Point
    [PNdArray "float64" [2; 1]%nat [SFloat 1; SFloat 2];
     PDict [("counts"%string, PList [PScalar (SInt 1); PNone])]].


Ltac no_dup_strings :=
  repeat (constructor; [simpl; intuition discriminate|]); constructor.

Lemma roundtrip_restores_value_witness :
  deserialise_namedtuple sample_import every_dtype same_scalar
    (serialise_namedtuple sample_record) = Ok sample_record.
Proof.
  apply (roundtrip_restores_value sample_import every_dtype same_scalar
           sample_record); [|reflexivity].
  apply rt_namedtuple; [split; [reflexivity | no_dup_strings] | reflexivity |].
  constructor.
  - apply rt_ndarray; repeat split; try discriminate.
    repeat constructor.
  - constructor; [|constructor].
    apply rt_dict; [split; reflexivity|].
    constructor; [|constructor].
    apply rt_list; repeat constructor.
Defined.


(** C9, counterexample: a map that happens to carry the entry
    ['type': '__ndarray__'] is serialised unchanged and then taken for an
    encoded array, so deserialisation fails on the missing ['__data__']
    instead of returning the map. *)
Lemma tagged_map_roundtrip_counterexample :
  serialise_namedtuple (PDict [("type"%string, PStr "__ndarray__")])
  = PDict [("type"%string, PStr "__ndarray__")]
  /\ deserialise_namedtuple sample_import every_dtype same_scalar
       (serialise_namedtuple (PDict [("type"%string, PStr "__ndarray__")]))
     = Raise (KeyError "__data__")
  /\ deserialise_namedtuple sample_import every_dtype same_scalar
       (serialise_namedtuple (PDict [("type"%string, PStr "__ndarray__")]))
     <> Ok (PDict [("type"%string, PStr "__ndarray__")]).
Proof. repeat split; try reflexivity; discriminate. Qed.

(** An array with an empty leading axis comes back with another shape:
    [tolist] writes [[]] for shape [(0, 3)] and [np.array] reads [(0,)]. *)
Lemma empty_leading_axis_changes_shape :
  deserialise_namedtuple sample_import every_dtype same_scalar
    (serialise_namedtuple (PNdArray "float64" [0; 3]%nat []))
  = Ok (PNdArray "float64" [0%nat] []).
Proof. reflexivity. Qed.

End NamedtupleUtilsFacts.

(** ** ForcedIdentifiability: support, strict order and the other round trip *)

Module ForcedIdentifiabilityMore.
Import Jnp JnpFacts ForcedIdentifiability ForcedIdentifiabilityFacts.

(** [jnp.cumsum] undoes [jnp.diff] with the start value prepended. *)
Section Redo.
Context {A : Type}.
Variables (add sub : A -> A -> A) (zero : A).
Hypothesis sub_add : forall a x, add a (sub x a) = x.
Hypothesis sub_zero : forall x, sub x zero = x.

Lemma diff_cons2 (a y : A) (l : list A) :
  diff sub (a :: y :: l) = sub y a :: diff sub (y :: l).
Proof. reflexivity. Qed.

Lemma diff_length (a : A) (l : list A) : length (diff sub (a :: l)) = length l.
Proof.
  revert a; induction l as [|y l IH]; intros a; [reflexivity|].
  rewrite diff_cons2; simpl; now rewrite IH.
Qed.

Lemma cumsum_from_diff (a : A) (l : list A) :
  cumsum_from add a (diff sub (a :: l)) = l.
Proof.
  revert a; induction l as [|y l IH]; intros a; [reflexivity|].
  rewrite diff_cons2; simpl; now rewrite sub_add, IH.
Qed.

Lemma cumsum_diff_prepend (l : list A) :
  cumsum add (diff_prepend sub zero l) = l.
Proof.
  destruct l as [|x l]; [reflexivity|].
  unfold diff_prepend; rewrite diff_cons2; simpl.
  now rewrite sub_zero, cumsum_from_diff.
Qed.
End Redo.


(** *** Columns *)

Lemma suffix_sums_neg (l : list R) :
  Forall (fun x => x < 0) l ->
  StronglySorted Rlt (suffix_sums l) /\ Forall (fun s => s < 0) (suffix_sums l)
  /\ sum l <= 0.
Proof.
  induction 1 as [|x l Hx Hl (IHs & IHf & IHsum)]; simpl.
  - repeat split; try constructor; lra.
  - repeat split; try lra.
    + constructor; [assumption|].
      destruct l as [|y l']; simpl in *; [constructor|].
      inversion IHs as [|? ? Hs' Hall]; subst.
      constructor; [lra|].
      eapply Forall_impl; [|exact Hall]; simpl; intros; lra.
    + constructor; [lra | assumption].
Qed.

Lemma inner_column_neg (nf : Z) (u : list R) :
  Forall (fun x => 0 < x < 1) u ->
  Forall (fun x => x < 0) (inner_column nf u).
Proof.
  intros Hu.
  apply (map2_Forall (fun x => x < 0) (fun k => 0 < k)); [| |apply ks_pos].
  - intros x k Hx Hk; unfold Rdiv.
    pose proof (Rinv_0_lt_compat k Hk); nra.
  - apply Forall_map; eapply Forall_impl; [|exact Hu]; simpl.
    intros x [H0 H1]; rewrite <- ln_1; now apply ln_increasing.
Qed.

Lemma StronglySorted_lt_map (g : R -> R) (l : list R) :
  (forall a b, a < b -> g a < g b) ->
  StronglySorted Rlt l -> StronglySorted Rlt (map g l).
Proof.
  intros Hg; induction 1 as [|a l Hs IH Hall]; simpl; constructor; auto.
  apply Forall_map; eapply Forall_impl; [|exact Hall]; simpl; auto.
Qed.

Lemma StronglySorted_lt_snoc (l : list R) (h : R) :
  StronglySorted Rlt l -> Forall (fun x => x < h) l ->
  StronglySorted Rlt (l ++ [h]).
Proof.
  induction 1 as [|a l Hs IH Hall]; intros Hb; simpl.
  - repeat constructor.
  - inversion Hb; subst; constructor; auto.
    apply Forall_app; split; auto.
Qed.

Lemma core_column_strict (lo hi : R) (inner : list R) :
  lo < hi -> Forall (fun x => x < 0) inner ->
  StronglySorted Rlt (core_column lo hi inner)
  /\ Forall (fun x => lo < x < hi) (core_column lo hi inner).
Proof.
  intros Hlh Hin; destruct (suffix_sums_neg inner Hin) as (Hs & Hf & _).
  unfold core_column; split.
  - apply StronglySorted_lt_map; [|assumption].
    intros a b Hab; pose proof (exp_increasing a b Hab); nra.
  - apply Forall_map; eapply Forall_impl; [|exact Hf]; simpl.
    intros e He; pose proof (exp_pos e).
    assert (exp e < 1) by (rewrite <- exp_0; now apply exp_increasing).
    nra.
Qed.

Section Prior.
Context {I : Type}.

(** A sample laid out as [_quantile] builds it: the fixed end points around
    the free values [c]. *)
Definition with_ends (p : t I) (c : list (trailing I)) : list (trailing I) :=
  (if fix_left p then [low p] else [])
  ++ c ++ (if fix_right p then [high p] else []).

(** The free values lie on the side of [low] that [high] is on. *)
Definition inside (p : t I) (c : list (trailing I)) : Prop :=
  length c = Z.to_nat (n_free p)
  /\ Forall (fun x => forall i,
               0 < (x i - low p i) / (high p i - low p i)) c.

(** X1: In exact real arithmetic, with [low < high], the values that [forward]
    returns for a point of the unit cube increase strictly along the
    leading axis and lie in [[low, high]]; the free values lie strictly
    between.  (Rounding can put a free value on [high], or above it.) *)
Theorem forward_strictly_increasing_in_support
    (p : t I) (U : list (trailing I)) :
  (forall i, low p i < high p i) -> unit_cube p U ->
  forward p U = Ok (with_ends p (core p U))
  /\ forall i,
       StronglySorted Rlt (column i (with_ends p (core p U)))
       /\ Forall (fun x => low p i <= x <= high p i)
            (column i (with_ends p (core p U)))
       /\ Forall (fun x => low p i < x < high p i) (column i (core p U)).
Proof.
  intros Hlt [Hlen HU].
  split; [now apply quantile_eq|].
  intros i.
  assert (Hu : Forall (fun x => 0 < x < 1) (column i U)).
  { unfold column; apply Forall_map; eapply Forall_impl; [|exact HU].
    simpl; auto. }
  destruct (core_column_strict (low p i) (high p i)
              (inner_column (n_free p) (column i U)) (Hlt i)
              (inner_column_neg _ _ Hu)) as [Hs Hb].
  rewrite <- (column_core p U i) in Hs, Hb.
  assert (Hlo : Forall (fun x => low p i < x) (column i (core p U)))
    by (eapply Forall_impl; [|exact Hb]; simpl; intros; lra).
  assert (Hhi : Forall (fun x => x < high p i) (column i (core p U)))
    by (eapply Forall_impl; [|exact Hb]; simpl; intros; lra).
  assert (Hin : Forall (fun x => low p i <= x <= high p i)
                  (column i (core p U)))
    by (eapply Forall_impl; [|exact Hb]; simpl; intros; lra).
  specialize (Hlt i).
  unfold with_ends; rewrite !column_app.
  split; [|split; [|exact Hb]].
  - destruct (fix_left p), (fix_right p); simpl; rewrite ?app_nil_r.
    + constructor; [apply StronglySorted_lt_snoc; assumption|].
      apply Forall_app; split; [assumption|].
      constructor; [exact Hlt | constructor].
    + constructor; assumption.
    + apply StronglySorted_lt_snoc; assumption.
    + assumption.
  - destruct (fix_left p), (fix_right p); simpl; rewrite ?app_nil_r;
      repeat first [apply Forall_cons | apply Forall_nil
                   | apply Forall_app; split]; try assumption; lra.
Qed.

Lemma psub_padd (a x : trailing I) : padd a (psub x a) = x.
Proof.
  apply functional_extensionality; intros i; unfold psub, padd; lra.
Qed.

Lemma div_k_undoes_times_k (xs : list (trailing I)) (k : list R) :
  Forall (fun k => 0 < k) k -> length xs = length k ->
  map2 (fun x k i => x i / k) (map2 (fun x k i => x i * k) xs k) k = xs.
Proof.
  intros Hk; revert xs; induction Hk as [|k0 k Hk0 Hk IH];
    intros [|x xs] Hlen; simpl in *; try discriminate; [reflexivity|].
  rewrite IH by lia; f_equal.
  apply functional_extensionality; intros i; field; lra.
Qed.

Lemma ln_exp_rows (l : list (trailing I)) :
  map (fun u i => ln (u i)) (map (fun x i => exp (x i)) l) = l.
Proof.
  rewrite map_map.
  rewrite <- (map_id l) at 2; apply map_ext; intros x.
  apply functional_extensionality; intros i; apply ln_exp.
Qed.

(** The array [inner] that [_cdf] recovers from a sample. *)
Definition inner_of (p : t I) (c : list (trailing I)) : list (trailing I) :=
  rev (diff_prepend psub (fun _ => 0)
         (rev (map (fun x i => ln ((x i - low p i) / (high p i - low p i)))
                 c))).

Lemma inner_of_length (p : t I) (c : list (trailing I)) :
  length (inner_of p c) = length c.
Proof.
  unfold inner_of, diff_prepend.
  now rewrite length_rev, diff_length, length_rev, length_map.
Qed.

Lemma cdf_with_ends (p : t I) (c : list (trailing I)) :
  length c = Z.to_nat (n_free p) ->
  cdf p (with_ends p c)
  = Ok (map (fun x i => exp (x i))
          (map2 (fun x k i => x i * k) (inner_of p c) (ks (n_free p)))).
Proof.
  intros Hlen; unfold cdf, with_ends.
  pose proof (strip_ends (fix_left p) (fix_right p) (low p) (high p) c)
    as Hstrip; cbv zeta in Hstrip.
  rewrite Hstrip; fold (inner_of p c).
  rewrite broadcast2_same_length
    by now rewrite inner_of_length, ks_length.
  reflexivity.
Qed.

Lemma quantile_cdf_with_ends (p : t I) (c : list (trailing I)) :
  (forall i, low p i <> high p i) -> inside p c ->
  quantile p
    (map (fun x i => exp (x i))
       (map2 (fun x k i => x i * k) (inner_of p c) (ks (n_free p))))
  = Ok (with_ends p c).
Proof.
  intros Hne [Hlen Hin].
  assert (Hl : length (map2 (fun (x : trailing I) (k : R) (i : I) => x i * k)
                         (inner_of p c) (ks (n_free p)))
               = Z.to_nat (n_free p)).
  { rewrite map2_length; rewrite inner_of_length, ?ks_length; lia. }
  rewrite quantile_eq by now rewrite length_map.
  fold (with_ends p (core p
    (map (fun x i => exp (x i))
       (map2 (fun x k i => x i * k) (inner_of p c) (ks (n_free p)))))).
  do 2 f_equal.
  unfold core, inner_rows.
  rewrite ln_exp_rows, div_k_undoes_times_k;
    [| apply ks_pos | now rewrite inner_of_length, ks_length].
  unfold inner_of; rewrite rev_involutive.
  rewrite (cumsum_diff_prepend padd psub (fun _ => 0) psub_padd psub_zero).
  rewrite rev_involutive, map_map.
  rewrite <- (map_id c) at 2.
  apply map_ext_in; intros x Hx.
  apply functional_extensionality; intros i.
  rewrite Forall_forall in Hin; specialize (Hin x Hx i); specialize (Hne i).
  rewrite exp_ln by exact Hin; field; lra.
Qed.

(** X2: [forward] undoes [inverse]: a sample with its fixed end points in place
    and its free values on the side of [low] that [high] is on is mapped by
    [inverse] to an array that [forward] maps back to the sample. *)
Theorem forward_inverse_roundtrip (p : t I) (c : list (trailing I)) :
  (forall i, low p i <> high p i) -> inside p c ->
  exists U, inverse p (with_ends p c) = Ok U
            /\ forward p U = Ok (with_ends p c).
Proof.
  intros Hne Hin.
  eexists; split; [apply cdf_with_ends; apply Hin|].
  now apply quantile_cdf_with_ends.
Qed.

(** *** Ordered samples come from the unit cube *)








End Prior.

Lemma forward_strictly_increasing_in_support_witness :
  forward (mk 3 (scalar 0) (scalar 1) true true) [scalar (1 / 2)]
  = Ok (with_ends (mk 3 (scalar 0) (scalar 1) true true)
          (core (mk 3 (scalar 0) (scalar 1) true true) [scalar (1 / 2)]))
  /\ forall i,
       StronglySorted Rlt
         (column i (with_ends (mk 3 (scalar 0) (scalar 1) true true)
                      (core (mk 3 (scalar 0) (scalar 1) true true)
                         [scalar (1 / 2)])))
       /\ Forall (fun x => scalar 0 i <= x <= scalar 1 i)
            (column i (with_ends (mk 3 (scalar 0) (scalar 1) true true)
                         (core (mk 3 (scalar 0) (scalar 1) true true)
                            [scalar (1 / 2)])))
       /\ Forall (fun x => scalar 0 i < x < scalar 1 i)
            (column i (core (mk 3 (scalar 0) (scalar 1) true true)
                         [scalar (1 / 2)])).
Proof.
  apply (forward_strictly_increasing_in_support
           (mk 3 (scalar 0) (scalar 1) true true) [scalar (1 / 2)]).
  - intros i; unfold scalar; simpl; lra.
  - split; [reflexivity|].
    constructor; [intros i; unfold scalar; lra | constructor].
Defined.

Lemma forward_inverse_roundtrip_witness :
  exists U,
    inverse (mk 2 (scalar 0) (scalar 4) false false)
      (with_ends (mk 2 (scalar 0) (scalar 4) false false)
         [scalar 1; scalar 3]) = Ok U
    /\ forward (mk 2 (scalar 0) (scalar 4) false false) U
       = Ok (with_ends (mk 2 (scalar 0) (scalar 4) false false)
               [scalar 1; scalar 3]).
Proof.
  apply (forward_inverse_roundtrip (mk 2 (scalar 0) (scalar 4) false false)
           [scalar 1; scalar 3]).
  - intros i; unfold scalar; simpl; lra.
  - split; [reflexivity|].
    constructor; [intros i; unfold scalar; simpl; lra|].
    constructor; [intros i; unfold scalar; simpl; lra | constructor].
Defined.


End ForcedIdentifiabilityMore.

(** ** Categorical: exact lookup, Gumbel-max and the softmax *)

Module CategoricalMore.
Import Jnp JnpFacts Categorical CategoricalFacts CategoricalRest.

(** X5: In exact real arithmetic, under [cdf], a draw [u] of [(0,1)] is sent to
    the category [i] exactly when [u] lies in the step of the discrete CDF
    that belongs to [i]: above the CDF of every earlier category and at
    most the CDF at [i].  (Rounding can move a draw next to the end of a
    step into the neighbouring category.) *)
Theorem forward_cdf_selects_iff_in_step (logits : list R) (u : R) (i : nat) :
  logits <> [] -> 0 < u -> u < 1 ->
  forward "cdf" logits [u] = Ok (Some [Z.of_nat i]) <-> cdf_bracket logits u i.
Proof.
  intros Hne H0 H1.
  destruct (lookup_leftmost logits u Hne H0 H1) as [_ Hs]; cbv zeta in Hs.
  rewrite forward_cdf_eq.
  set (s := searchsorted_left (normalised_cum_logits logits) (ln u)) in *.
  split.
  - intros H; injection H as H; apply Nat2Z.inj in H; now subst i.
  - intros Hi.
    destruct Hs as [Hs1 Hs2], Hi as [Hi1 Hi2].
    destruct (Nat.lt_trichotomy s i) as [Hlt | [Heq | Hgt]].
    + specialize (Hi2 s Hlt); lra.
    + now rewrite Heq.
    + specialize (Hs2 i Hgt); lra.
Qed.

Lemma forward_cdf_selects_iff_in_step_witness :
  forward "cdf" [0; 0] [1 / 4] = Ok (Some [Z.of_nat 0])
  <-> cdf_bracket [0; 0] (1 / 4) 0.
Proof.
  apply (forward_cdf_selects_iff_in_step [0; 0] (1 / 4) 0);
    [discriminate | lra | lra].
Defined.

(** *** [argmax] *)

Lemma argmax_from_spec (pre t : list R) (best : R) (besti : nat) :
  (besti < length pre)%nat -> nth besti pre 0 = best ->
  (forall j, (j < length pre)%nat -> nth j pre 0 <= best) ->
  (forall j, (j < besti)%nat -> nth j pre 0 < best) ->
  let r := argmax_from best besti (length pre) t in
  (r < length (pre ++ t))%nat
  /\ (forall j, (j < length (pre ++ t))%nat ->
                nth j (pre ++ t) 0 <= nth r (pre ++ t) 0)
  /\ (forall j, (j < r)%nat -> nth j (pre ++ t) 0 < nth r (pre ++ t) 0).
Proof.
  revert pre best besti; induction t as [|x t IH];
    intros pre best besti Hb Hbest Hmax Hfirst; cbn [argmax_from].
  - rewrite app_nil_r; subst best; repeat split; auto.
  - replace (pre ++ x :: t) with ((pre ++ [x]) ++ t)
      by (rewrite <- app_assoc; reflexivity).
    replace (S (length pre)) with (length (pre ++ [x]))
      by (rewrite length_app; simpl; lia).
    destruct (Rlt_dec best x) as [Hlt | Hge].
    + apply IH.
      * rewrite length_app; simpl; lia.
      * now rewrite app_nth2, Nat.sub_diag by lia.
      * intros j Hj; rewrite length_app in Hj; simpl in Hj.
        destruct (Nat.eq_dec j (length pre)) as [-> | Hne].
        -- rewrite app_nth2, Nat.sub_diag by lia; simpl; lra.
        -- rewrite app_nth1 by lia. specialize (Hmax j ltac:(lia)); lra.
      * intros j Hj; rewrite app_nth1 by lia.
        specialize (Hmax j Hj); lra.
    + apply IH.
      * rewrite length_app; simpl; lia.
      * now rewrite app_nth1 by lia.
      * intros j Hj; rewrite length_app in Hj; simpl in Hj.
        destruct (Nat.eq_dec j (length pre)) as [-> | Hne].
        -- rewrite app_nth2, Nat.sub_diag by lia; simpl; lra.
        -- rewrite app_nth1 by lia. apply Hmax; lia.
      * intros j Hj; rewrite app_nth1 by lia. now apply Hfirst.
Qed.

Lemma argmax_spec (l : list R) :
  l <> [] ->
  (argmax l < length l)%nat
  /\ (forall j, (j < length l)%nat -> nth j l 0 <= nth (argmax l) l 0)
  /\ (forall j, (j < argmax l)%nat -> nth j l 0 < nth (argmax l) l 0).
Proof.
  destruct l as [|x t]; [congruence|]; intros _.
  apply (argmax_from_spec [x] t x 0%nat); simpl; try lia; try reflexivity.
  intros j Hj; replace j with 0%nat by lia; lra.
Qed.

(** The logits with the Gumbel noise of [_quantile_gumbelmax] added. *)
Definition noisy (logits U : list R) : list R :=
  map2 Rplus logits (map (fun u => - ln (- ln u)) U).

(** X6: Under [gumbel_max], for uniforms of the base shape (one per category),
    [forward] returns one index below the number of categories; it is the
    first index at which the logit plus Gumbel noise is largest. *)
Theorem forward_gumbel_max_first_maximiser (logits U : list R) :
  logits <> [] -> base_shape "gumbel_max" logits [] = Some [length U] ->
  Forall (fun u => 0 < u < 1) U ->
  exists i : nat,
    forward "gumbel_max" logits U = Ok (Some [Z.of_nat i])
    /\ (i < length logits)%nat
    /\ (forall j, (j < length logits)%nat ->
                  nth j (noisy logits U) 0 <= nth i (noisy logits U) 0)
    /\ (forall j, (j < i)%nat ->
                  nth j (noisy logits U) 0 < nth i (noisy logits U) 0).
Proof.
  intros Hne Hshape _.
  assert (Hlen : length U = length logits)
    by (injection Hshape as Hshape; symmetry; exact Hshape).
  assert (Hl : length (noisy logits U) = length logits).
  { unfold noisy; rewrite map2_length; [reflexivity|].
    now rewrite length_map. }
  assert (Hn : noisy logits U <> []).
  { intros E; rewrite E in Hl; destruct logits; simpl in Hl;
      [congruence | discriminate]. }
  destruct (argmax_spec (noisy logits U) Hn) as (Hr & Hmax & Hfirst).
  exists (argmax (noisy logits U)).
  rewrite Hl in Hr, Hmax.
  repeat split; auto.
  unfold forward, quantile_gumbelmax; cbn [String.eqb Ascii.eqb Bool.eqb].
  rewrite broadcast2_same_length by now rewrite length_map.
  reflexivity.
Qed.

Lemma forward_gumbel_max_first_maximiser_witness :
  exists i : nat,
    forward "gumbel_max" [0; 1] [1 / 2; 1 / 2] = Ok (Some [Z.of_nat i])
    /\ (i < length [0; 1])%nat
    /\ (forall j, (j < length [0; 1])%nat ->
                  nth j (noisy [0; 1] [1 / 2; 1 / 2]) 0
                  <= nth i (noisy [0; 1] [1 / 2; 1 / 2]) 0)
    /\ (forall j, (j < i)%nat ->
                  nth j (noisy [0; 1] [1 / 2; 1 / 2]) 0
                  < nth i (noisy [0; 1] [1 / 2; 1 / 2]) 0).
Proof.
  apply (forward_gumbel_max_first_maximiser [0; 1] [1 / 2; 1 / 2]);
    [discriminate | reflexivity |].
  repeat (constructor; [lra|]); constructor.
Defined.

(** X7: The parametrisation is not validated: with any name other than the two
    known ones, [_base_shape] and [_forward] return [None] and [_inverse]
    raises [NotImplementedError]. *)
Theorem unknown_parametrisation_yields_none
    (parametrisation : string) (logits : list R) (shape : list nat)
    (dist_cdf : Z -> R) (U : list R) (X : Z) :
  parametrisation <> "gumbel_max"%string -> parametrisation <> "cdf"%string ->
  base_shape parametrisation logits shape = None
  /\ forward parametrisation logits U = Ok None
  /\ inverse parametrisation dist_cdf X = Raise NotImplementedError.
Proof.
  intros Hg Hc; apply String.eqb_neq in Hg, Hc.
  unfold base_shape, forward, inverse; rewrite Hg, Hc; auto.
Qed.

Lemma unknown_parametrisation_yields_none_witness :
  base_shape "gumbel" [0; 1] [] = None
  /\ forward "gumbel" [0; 1] [1 / 2; 1 / 2] = Ok None
  /\ inverse "gumbel" (fun _ => 0) 0%Z = Raise NotImplementedError.
Proof.
  apply (unknown_parametrisation_yields_none
           "gumbel" [0; 1] [] (fun _ => 0) [1 / 2; 1 / 2] 0%Z);
    discriminate.
Defined.

(** *** [_cdf_gumbelmax] *)







End CategoricalMore.

(** ** Poisson: what the bracket search maintains *)

Module PoissonMore.
Import Poisson PoissonFacts.

Section Run.
Variable igammac : R -> R -> R.
Variables U rate : R.

Local Abbreviation clamped := (PoissonFacts.clamped rate).
Local Abbreviation step := (PoissonFacts.step igammac U rate).
Local Abbreviation bracket_after := (PoissonFacts.bracket_after igammac U rate).
Local Abbreviation bounded := (PoissonFacts.bounded U).

Definition f_lower (s : carry) : R := let '(_, _, f_a, _) := s in f_a.

(** The cached CDF values belong to the ends of the bracket, and the lower
    end is either still the initial [0] or a point whose CDF is at most
    [U]. *)
Definition consistent (s : carry) : Prop :=
  0 <= lower s < upper s
  /\ f_upper s = smooth_cdf igammac (upper s) clamped
  /\ ((lower s = 0 /\ f_lower s = 0)
      \/ (f_lower s = smooth_cdf igammac (lower s) clamped
          /\ smooth_cdf igammac (lower s) clamped <= U)).

Lemma clamped_pos : 0 < clamped.
Proof.
  unfold PoissonFacts.clamped.
  pose proof (Rmax_r rate (1 / 100000)); lra.
Qed.

Lemma consistent_init : consistent (init_carry igammac clamped).
Proof.
  pose proof clamped_pos.
  unfold consistent, init_carry; simpl.
  repeat split; lra.
Qed.

Lemma consistent_step (s : carry) : consistent s -> consistent (step s).
Proof.
  destruct s as [[[a b] fa] fb].
  unfold consistent, PoissonFacts.step; simpl.
  intros ((Ha & Hab) & Hfb & Hfa).
  destruct (Rge_dec fb U) as [Hb | Hnb].
  - destruct (Rgt_dec (smooth_cdf igammac (0.5 * (a + b)) clamped) U)
      as [Hl | Hr]; simpl.
    + split; [lra|]. split; [reflexivity | exact Hfa].
    + split; [lra|]. split; [exact Hfb|].
      right; split; [reflexivity | lra].
  - simpl; split; [lra|]. split; [reflexivity | exact Hfa].
Qed.

Lemma consistent_after (n : nat) : consistent (bracket_after n).
Proof.
  induction n as [|n IH]; [exact consistent_init|].
  change (bracket_after (S n)) with (step (bracket_after n)).
  now apply consistent_step.
Qed.


Lemma upper_le (n : nat) : upper (bracket_after n) <= clamped * 2 ^ n.
Proof.
  pose proof clamped_pos as Hc.
  induction n as [|n IH].
  - unfold PoissonFacts.bracket_after, init_carry; simpl; lra.
  - change (bracket_after (S n)) with (step (bracket_after n)).
    destruct (consistent_after n) as ((Hl & Hlu) & _).
    destruct (bounded_dec U (bracket_after n)) as [Hb | Hnb].
    + destruct (step_bounded igammac U rate _ Hb) as [[[_ Hu] | [_ Hu]] _];
        rewrite Hu; unfold midpoint; simpl pow;
        assert (0 < 2 ^ n) by (apply pow_lt; lra); nra.
    + destruct (step_unbounded igammac U rate _ Hnb) as [_ Hu].
      rewrite Hu; simpl pow; lra.
Qed.


Lemma snd_update (s : carry) (x : nat) :
  snd (fixed_point_update igammac U clamped s x) = midpoint (step s).
Proof.
  destruct s as [[[a b] fa] fb].
  unfold PoissonFacts.step, midpoint; simpl.
  destruct (Rge_dec fb U);
    destruct (Rgt_dec (smooth_cdf igammac (0.5 * (a + b)) clamped) U);
    reflexivity.
Qed.

Lemma fst_update (s : carry) (x : nat) :
  fst (fixed_point_update igammac U clamped s x) = step s.
Proof. reflexivity. Qed.

Lemma scan_trace (xs : list nat) (s : carry) :
  snd (scan (fixed_point_update igammac U clamped) s xs)
  = map (fun i => midpoint (Nat.iter (S i) step s)) (seq 0 (length xs)).
Proof.
  revert s; induction xs as [|x xs IH]; intros s; [reflexivity|].
  simpl scan.
  pose proof (snd_update s x) as Hy; pose proof (fst_update s x) as Hc.
  destruct (fixed_point_update igammac U clamped s x) as [c y].
  simpl in Hy, Hc; subst c y.
  specialize (IH (step s)).
  destruct (scan (fixed_point_update igammac U clamped) (step s) xs)
    as [c' ys].
  simpl snd in *; simpl length; rewrite IH.
  cbn [seq map]; f_equal.
  rewrite <- seq_shift, map_map.
  apply map_ext; intros i.
  now rewrite <- !Nat.iter_succ_r.
Qed.

Lemma trace_eq (n : nat) (unroll : bool) :
  (n = 0%nat -> unroll = false) ->
  _poisson_quantile_bisection igammac U rate n unroll
  = Ok (midpoint (bracket_after n),
        map (fun i => midpoint (bracket_after (S i))) (seq 0 n)).
Proof.
  intros Hn.
  pose proof (scan_ignores_index igammac U rate (seq 0 n)
                (init_carry igammac clamped)) as [Hc _].
  pose proof (scan_trace (seq 0 n) (init_carry igammac clamped)) as Ht.
  rewrite length_seq in Hc, Ht.
  unfold _poisson_quantile_bisection, lax_scan.
  change (Rmax rate (1 / 100000)) with clamped.
  assert (Hu : Nat.eqb (if unroll then n else 1%nat) 0 = false).
  { destruct unroll; [|reflexivity].
    apply Nat.eqb_neq; intros E; specialize (Hn E); discriminate. }
  rewrite Hu; cbn [bind].
  unfold PoissonFacts.bracket_after at 1; rewrite <- Hc.
  destruct (scan (fixed_point_update igammac U clamped)
              (init_carry igammac clamped) (seq 0 n))
    as [[[[a b] fa] fb] xs].
  cbn [fst snd] in *; rewrite Ht; reflexivity.
Qed.

End Run.




(** X12: [forward] returns an integer of [int_type] that is never negative
    and lies below the upper end of the final bracket, hence below
    [rate * 2^15]; unless the midpoint of the final bracket lies beyond the
    integers of the type, it also lies within one below the lower end. *)
Theorem forward_nonnegative_in_bracket
    (igammac : R -> R -> R) (bits : Z) (rate U : R) :
  (0 < bits)%Z ->
  let s := bracket_after igammac U rate 15 in
  exists z, forward igammac bits rate U = Ok z
    /\ (0 <= z <= 2 ^ (bits - 1) - 1)%Z
    /\ IZR z < upper s
    /\ IZR z < clamped rate * 2 ^ 15
    /\ (midpoint s < IZR (2 ^ (bits - 1)) -> lower s - 1 < IZR z).
Proof.
  intros Hbits s.
  exists (astype_int bits (midpoint s)).
  split; [exact (forward_eq igammac U rate bits)|].
  destruct (consistent_after igammac U rate 15) as ((Hl & Hlu) & _).
  fold s in Hl, Hlu.
  pose proof (upper_le igammac U rate 15) as Hu; fold s in Hu.
  assert (Hm : lower s < midpoint s < upper s) by (unfold midpoint; lra).
  destruct (astype_int_spec bits (midpoint s) Hbits) as (Hr & Hle & Hlt & _);
    [lra|].
  split; [exact Hr|]. split; [lra|]. split; [lra|].
  intros H; specialize (Hlt H); lra.
Qed.

Lemma forward_nonnegative_in_bracket_witness :
  exists z, forward (fun a _ => a) 32 1 (3 / 2) = Ok z
    /\ IZR z < upper (bracket_after (fun a _ => a) (3 / 2) 1 15).
Proof.
  destruct (forward_nonnegative_in_bracket (fun a _ => a) 32 1 (3 / 2))
    as (z & Hz & _ & Hu & _); [lia|].
  exists z; split; assumption.
Defined.

(** X13: Unless it is asked to unroll all of no steps, in which case the scan
    refuses, [_poisson_quantile_bisection] returns with the trace
    [x_results] holding the midpoint of the bracket after each scan step;
    with at least one step the last entry is the value returned. *)
Theorem trace_holds_midpoints
    (igammac : R -> R -> R) (U rate : R) (n : nat) (unroll : bool) :
  (n = 0%nat /\ unroll = true ->
   exists e, _poisson_quantile_bisection igammac U rate n unroll = Raise e)
  /\ (~ (n = 0%nat /\ unroll = true) ->
      exists x x_results,
        _poisson_quantile_bisection igammac U rate n unroll
        = Ok (x, x_results)
        /\ x_results
           = map (fun i => midpoint (bracket_after igammac U rate (S i)))
               (seq 0 n)
        /\ ((0 < n)%nat -> last x_results 0 = x)).
Proof.
  split.
  - intros [-> ->]; apply bisection_raises.
  - intros Hno.
    assert (Hn : n = 0%nat -> unroll = false).
    { intros E; destruct unroll; [exfalso; apply Hno; auto | reflexivity]. }
    rewrite (trace_eq igammac U rate n unroll Hn).
    eexists; eexists; split; [reflexivity|]. split; [reflexivity|].
    intros Hpos; destruct n as [|n]; [lia|].
    rewrite seq_S, map_app; simpl.
    now rewrite last_last.
Qed.



End PoissonMore.

(** ** The serialisation bridge: plain data, errors and array shapes *)

Module NamedtupleUtilsMore.
Import NamedtupleUtils NamedtupleUtilsFacts.

(** Data made of [None], numbers, strings, lists and dictionaries only. *)
Fixpoint plain (v : pyobj) : bool :=
  match v with
  | PNone | PScalar _ | PStr _ => true
  | PList l => forallb plain l
  | PDict items => forallb (fun kv => plain (snd kv)) items
  | PTuple _ | PNamedTuple _ _ | PNdArray _ _ _ => false
  end.

(** No dictionary anywhere in the value carries one of the two tags. *)
Fixpoint tag_free (v : pyobj) : bool :=
  match v with
  | PList l | PTuple l | PNamedTuple _ l => forallb tag_free l
  | PDict items =>
      negb (has_type_tag items "__namedtuple__")
      && negb (has_type_tag items "__ndarray__")
      && forallb (fun kv => tag_free (snd kv)) items
  | _ => true
  end.


(** The shape [np.array] reads from what [tolist] wrote: the axes up to and
    including the first axis of length zero. *)
Fixpoint read_shape (shape : list nat) : list nat :=
  match shape with
  | [] => []
  | O :: _ => [O]
  | d :: rest => d :: read_shape rest
  end.








Lemma tags_exclusive (items : list (string * pyobj)) :
  has_type_tag items "__ndarray__" = true ->
  has_type_tag items "__namedtuple__" = false.
Proof.
  unfold has_type_tag; destruct (lookup "type" items) as [v|]; [|discriminate].
  destruct v; try discriminate; cbn [eq_str].
  intros H; apply String.eqb_eq in H; subst; reflexivity.
Qed.

Lemma of_nested_tolist_any (shape : list nat) (data : list scalar) :
  length data = prod_shape shape ->
  of_nested (tolist shape data) = Ok (read_shape shape, data).
Proof.
  revert data; induction shape as [|d rest IH]; intros data Hlen.
  - destruct data as [|x [|y data]]; simpl in Hlen; try discriminate.
    reflexivity.
  - change (prod_shape (d :: rest)) with (d * prod_shape rest)%nat in Hlen.
    destruct d as [|d].
    + destruct data; [reflexivity | discriminate].
    + cbn [tolist read_shape].
      pose proof (chunks_sizes (S d) (prod_shape rest) data Hlen) as Hsz.
      pose proof (chunks_length (S d) (prod_shape rest) data) as Hd.
      pose proof (chunks_concat (S d) (prod_shape rest) data Hlen) as Hcat.
      destruct (chunks (S d) (prod_shape rest) data) as [|c cs] eqn:E;
        [discriminate|].
      assert (Hall : Forall (fun c => of_nested (tolist rest c)
                                      = Ok (read_shape rest, c)) (c :: cs)).
      { eapply Forall_impl; [|exact Hsz]. intros a Ha; now apply IH. }
      cbn [map]; rewrite of_nested_cons.
      pose proof (Forall_inv Hall) as Hc; cbv beta in Hc.
      rewrite Hc; cbn [bind].
      change (tolist rest c :: map (tolist rest) cs)
        with (map (tolist rest) (c :: cs)).
      assert (Hg : gather (read_shape rest) (map (tolist rest) (c :: cs))
                   = Ok (concat (c :: cs))).
      { clear - Hall. induction Hall as [|a l Ha Hl IHl]; [reflexivity|].
        cbn [map gather concat]; rewrite Ha, IHl; simpl.
        now rewrite shape_eqb_refl. }
      rewrite Hg; cbn [bind].
      now rewrite length_map, Hd, Hcat.
Qed.

Lemma read_shape_fixed (shape : list nat) :
  read_shape shape = shape <-> shape_recoverable shape.
Proof.
  induction shape as [|d rest IH]; [simpl; tauto|].
  destruct d as [|d]; cbn [read_shape shape_recoverable].
  - split.
    + intros H; injection H as <-; simpl; auto.
    + intros [H _]; now rewrite (H eq_refl).
  - split.
    + intros H; injection H as H; split; [discriminate | now apply IH].
    + intros [_ H]; f_equal; now apply IH.
Qed.

Section Process.
Variable import_module : string -> option (string -> option pyclass).
Variable dtype_known : string -> bool.
Variable astype : string -> scalar -> scalar.

Local Abbreviation deserialise :=
  (deserialise_namedtuple import_module dtype_known astype).
Local Abbreviation each :=
  (NamedtupleUtilsFacts.each import_module dtype_known astype).
Local Abbreviation each_value :=
  (NamedtupleUtilsFacts.each_value import_module dtype_known astype).
Local Abbreviation data_of :=
  (NamedtupleUtilsFacts.data_of import_module dtype_known astype).

Lemma each_fixed (l : list pyobj) :
  Forall (fun x => deserialise x = Ok x) l -> each l = Ok l.
Proof.
  induction 1 as [|x l Hx Hl IH]; [reflexivity|].
  cbn [NamedtupleUtilsFacts.each]; rewrite Hx, IH; reflexivity.
Qed.

Lemma each_value_fixed (items : list (string * pyobj)) :
  Forall (fun kv => deserialise (snd kv) = Ok (snd kv)) items ->
  each_value items = Ok items.
Proof.
  induction 1 as [|[k v] items Hx Hl IH]; [reflexivity|].
  cbn [NamedtupleUtilsFacts.each_value snd] in *; rewrite Hx, IH; reflexivity.
Qed.

(** X16: Plain data without a tagged dictionary is returned by
    [deserialise_namedtuple] as it is. *)
Theorem deserialise_fixes_untagged_plain_data (v : pyobj) :
  plain v = true -> tag_free v = true -> deserialise v = Ok v.
Proof.
  induction v as [| x | s | l IH | l IH | items IH | cls values IH
                  | dtype shape data] using pyobj_induction;
    cbn [plain tag_free]; intros Hp Ht; try reflexivity; try discriminate.
  - rewrite deserialise_list, each_fixed; [reflexivity|].
    rewrite forallb_forall in Hp, Ht; rewrite Forall_forall in *.
    intros x Hx; auto.
  - apply andb_true_iff in Ht as [Ht Hall].
    apply andb_true_iff in Ht as [Hn Ha].
    apply negb_true_iff in Hn, Ha.
    rewrite deserialise_untagged by (split; assumption).
    rewrite each_value_fixed; [reflexivity|].
    rewrite forallb_forall in Hp, Hall; rewrite Forall_forall in *.
    intros x Hx; auto.
Qed.


Lemma data_of_missing (class_ : pyclass) (items : list (string * pyobj)) :
  lookup "__data__" items = None ->
  data_of class_ items = Raise (KeyError "__data__").
Proof.
  induction items as [|[k v] items IH]; [reflexivity|].
  cbn [lookup NamedtupleUtilsFacts.data_of].
  destruct (String.eqb k "__data__"); [discriminate | exact IH].
Qed.

(** X18: A dictionary that carries one of the two tags but not the entries that
    go with it is not returned as a dictionary: the missing entry is a
    [KeyError], for ['__class__'] first, then (once the class is found)
    ['__data__'] of a named tuple, and for ['__data__'] before
    ['__dtype__'] of an array. *)
Theorem tagged_dict_without_payload_raises_key_error
    (items : list (string * pyobj)) :
  (has_type_tag items "__namedtuple__" = true ->
   lookup "__class__" items = None ->
   deserialise (PDict items) = Raise (KeyError "__class__"))
  /\ (forall path class_,
        has_type_tag items "__namedtuple__" = true ->
        lookup "__class__" items = Some (PStr path) ->
        resolve import_module path = Ok class_ ->
        lookup "__data__" items = None ->
        deserialise (PDict items) = Raise (KeyError "__data__"))
  /\ (has_type_tag items "__ndarray__" = true ->
      lookup "__data__" items = None ->
      deserialise (PDict items) = Raise (KeyError "__data__"))
  /\ (forall data,
        has_type_tag items "__ndarray__" = true ->
        lookup "__data__" items = Some data ->
        lookup "__dtype__" items = None ->
        deserialise (PDict items) = Raise (KeyError "__dtype__")).
Proof.
  repeat split.
  - intros Ht Hc; rewrite deserialise_dict, Ht.
    unfold getitem; now rewrite Hc.
  - intros path class_ Ht Hc Hr Hd; rewrite deserialise_dict, Ht.
    unfold getitem; rewrite Hc; cbn [bind]; rewrite Hr; cbn [bind].
    now apply data_of_missing.
  - intros Ht Hd; rewrite deserialise_dict, (tags_exclusive _ Ht), Ht.
    unfold deserialise_ndarray, getitem; now rewrite Ht, Hd.
  - intros data Ht Hd Hy; rewrite deserialise_dict, (tags_exclusive _ Ht), Ht.
    unfold deserialise_ndarray, getitem; now rewrite Ht, Hd, Hy.
Qed.

(** X19: An array of a known dtype comes back from [serialise_ndarray] and
    [deserialise_ndarray] with its entries (converted to the dtype) and with
    its shape cut after the first axis of length zero; the shape is kept
    exactly when no zero-length axis comes before the last one.  The full
    bridge does the same to an array. *)
Theorem ndarray_roundtrip_keeps_entries_cuts_shape
    (dtype : string) (shape : list nat) (data : list scalar) :
  dtype_known dtype = true -> length data = prod_shape shape ->
  NdarrayCodec.deserialise_ndarray dtype_known astype
    (NdarrayCodec.serialise_ndarray (PNdArray dtype shape data))
  = Ok (PNdArray dtype (read_shape shape) (map (astype dtype) data))
  /\ deserialise (serialise_namedtuple (PNdArray dtype shape data))
     = Ok (PNdArray dtype (read_shape shape) (map (astype dtype) data))
  /\ (read_shape shape = shape <-> shape_recoverable shape).
Proof.
  intros Hk Hlen.
  assert (H : np_array dtype_known astype (tolist shape data) dtype
              = Ok (PNdArray dtype (read_shape shape)
                      (map (astype dtype) data))).
  { unfold np_array; rewrite Hk, of_nested_tolist_any by exact Hlen.
    reflexivity. }
  split; [|split; [|apply read_shape_fixed]].
  - cbn [NdarrayCodec.serialise_ndarray serialise_ndarray
         NdarrayCodec.deserialise_ndarray].
    exact H.
  - cbn [serialise_namedtuple]; unfold serialise_ndarray.
    rewrite deserialise_tagged_ndarray; exact H.
Qed.

End Process.

Lemma deserialise_fixes_untagged_plain_data_witness :
  deserialise_namedtuple sample_import every_dtype same_scalar
    (PDict [("type"%string, PStr "float");
            ("counts"%string, PList [PScalar (SInt 1); PNone])])
  = Ok (PDict [("type"%string, PStr "float");
               ("counts"%string, PList [PScalar (SInt 1); PNone])]).
Proof.
  apply (deserialise_fixes_untagged_plain_data
           sample_import every_dtype same_scalar
           (PDict [("type"%string, PStr "float");
                   ("counts"%string, PList [PScalar (SInt 1); PNone])]));
    reflexivity.
Defined.


Lemma ndarray_roundtrip_keeps_entries_cuts_shape_witness :
  NdarrayCodec.deserialise_ndarray every_dtype same_scalar
    (NdarrayCodec.serialise_ndarray
       (PNdArray "float64" [2; 0; 3]%nat []))
  = Ok (PNdArray "float64" (read_shape [2; 0; 3]%nat)
          (map (same_scalar "float64") []))
  /\ deserialise_namedtuple sample_import every_dtype same_scalar
       (serialise_namedtuple (PNdArray "float64" [2; 0; 3]%nat []))
     = Ok (PNdArray "float64" (read_shape [2; 0; 3]%nat)
             (map (same_scalar "float64") []))
  /\ (read_shape [2; 0; 3]%nat = [2; 0; 3]%nat
      <-> shape_recoverable [2; 0; 3]%nat).
Proof.
  apply (ndarray_roundtrip_keeps_entries_cuts_shape
           sample_import every_dtype same_scalar "float64" [2; 0; 3]%nat []);
    reflexivity.
Defined.

End NamedtupleUtilsMore.

(** ** Bernoulli: the threshold *)

Module BernoulliMore.
Import Bernoulli.

(** X9: [forward] is [1] exactly below the threshold [probs] and [0] from it
    on: it takes no other value and never increases with [u]. *)
Theorem forward_is_decreasing_threshold (probs u u' : R) :
  u <= u' ->
  (forward probs u = 1%Z <-> u < probs)
  /\ (forward probs u = 0%Z <-> probs <= u)
  /\ (forward probs u' <= forward probs u)%Z.
Proof.
  intros Hle; unfold forward, quantile.
  destruct (Rlt_dec u probs) as [H | H], (Rlt_dec u' probs) as [H' | H'];
    repeat split; intros; try reflexivity; try discriminate; try lia; lra.
Qed.

Lemma forward_is_decreasing_threshold_witness :
  (forward (1 / 2) (1 / 4) = 1%Z <-> 1 / 4 < 1 / 2)
  /\ (forward (1 / 2) (1 / 4) = 0%Z <-> 1 / 2 <= 1 / 4)
  /\ (forward (1 / 2) (3 / 4) <= forward (1 / 2) (1 / 4))%Z.
Proof.
  apply (forward_is_decreasing_threshold (1 / 2) (1 / 4) (3 / 4)); lra.
Defined.

End BernoulliMore.

(** ** ForcedIdentifiability: base shape and shape *)

Module ForcedIdentifiabilityShapes.
Import Jnp JnpFacts ForcedIdentifiability ForcedIdentifiabilityFacts
  ForcedIdentifiabilityMore.

Section Prior.
Context {I : Type}.

Lemma strip_length {A : Type} (fl fr : bool) (X : list A) (m : Z) :
  (n_min fl fr <= m)%Z -> length X = Z.to_nat m ->
  length (let X := if fl then tl X else X in
          if fr then removelast X else X)
  = Z.to_nat (m - n_min fl fr).
Proof.
  intros Hm HX; cbv zeta.
  assert (Htl : forall l : list A, length (tl l) = (length l - 1)%nat)
    by (intros [|a l]; simpl; lia).
  assert (Hrl : forall l : list A, length (removelast l) = (length l - 1)%nat).
  { intros l; destruct l as [|a l] using rev_ind; [reflexivity|].
    rewrite removelast_last, length_app; simpl; lia. }
  unfold n_min in *; destruct fl, fr; rewrite ?Hrl, ?Htl, HX; lia.
Qed.

Section Built.
Context {input : Type}.
Variable broadcast_arrays :
  input -> input -> result (trailing I * trailing I).

(** X4: For a prior built by the constructor, [forward] takes an array whose
    leading axis is that of [_base_shape] to one whose leading axis is that
    of [_shape], and [inverse] takes the latter back to the former. *)
Theorem forward_inverse_exchange_shapes
    (m : Z) (lo hi : input) (fl fr : bool) (p : t I)
    (shape_low : list Z) (A : list (trailing I)) :
  init broadcast_arrays m lo hi fl fr = Ok p ->
  (Z.of_nat (length A) :: shape_low = base_shape shape_low p ->
   exists X, forward p A = Ok X
             /\ Z.of_nat (length X) :: shape_low = shape shape_low p)
  /\ (Z.of_nat (length A) :: shape_low = shape shape_low p ->
      exists U, inverse p A = Ok U
                /\ Z.of_nat (length U) :: shape_low = base_shape shape_low p).
Proof.
  intros Hinit.
  destruct (init_ok broadcast_arrays _ _ _ _ _ _ Hinit)
    as (Hm & l & h & _ & ->).
  unfold base_shape, shape; cbn [n fix_left fix_right].
  pose proof (n_free_eq (mk m l h fl fr)) as Hfree;
    cbn [n fix_left fix_right] in Hfree.
  split; intros HA; injection HA as HA.
  - assert (HU : length A = Z.to_nat (n_free (mk m l h fl fr))) by lia.
    unfold forward; rewrite (quantile_eq _ _ HU).
    eexists; split; [reflexivity|]. f_equal.
    rewrite !length_app, core_length by exact HU.
    cbn [fix_left fix_right]; unfold n_min in *.
    destruct fl, fr; simpl length; lia.
  - assert (HX : length A = Z.to_nat m) by lia.
    pose proof (strip_length fl fr A m Hm HX) as Hs; cbv zeta in Hs.
    unfold inverse, cdf; cbn [fix_left fix_right low high].
    set (X := if fr then removelast (if fl then tl A else A)
              else if fl then tl A else A) in *.
    set (inner := rev (diff_prepend psub (fun _ : I => 0)
                         (rev (map (fun (x : trailing I) (i : I) =>
                                      ln ((x i - l i) / (h i - l i))) X)))).
    assert (Hin : length inner = Z.to_nat (m - n_min fl fr)).
    { unfold inner, diff_prepend.
      now rewrite length_rev, diff_length, length_rev, length_map. }
    rewrite Hfree.
    rewrite broadcast2_same_length by now rewrite ks_length.
    eexists; split; [reflexivity|]. f_equal.
    rewrite length_map, map2_length by now rewrite ks_length.
    change (Z.of_nat (length inner) = (m - n_min fl fr)%Z).
    rewrite Hin; lia.
Qed.
End Built.
End Prior.

Lemma forward_inverse_exchange_shapes_witness :
  (Z.of_nat (length [fun _ : unit => 1 / 2]) :: []
   = base_shape [] (mk 3 (fun _ : unit => 0) (fun _ => 1) true true) ->
   exists X,
     forward (mk 3 (fun _ : unit => 0) (fun _ => 1) true true)
       [fun _ : unit => 1 / 2] = Ok X
     /\ Z.of_nat (length X) :: []
        = shape [] (mk 3 (fun _ : unit => 0) (fun _ => 1) true true))
  /\ (Z.of_nat (length [fun _ : unit => 1 / 2]) :: []
      = shape [] (mk 3 (fun _ : unit => 0) (fun _ => 1) true true) ->
      exists U,
        inverse (mk 3 (fun _ : unit => 0) (fun _ => 1) true true)
          [fun _ : unit => 1 / 2] = Ok U
        /\ Z.of_nat (length U) :: []
           = base_shape [] (mk 3 (fun _ : unit => 0) (fun _ => 1) true true)).
Proof.
  apply (forward_inverse_exchange_shapes
           (fun a b : trailing unit => Ok (a, b))
           3 (fun _ => 0) (fun _ => 1) true true
           (mk 3 (fun _ : unit => 0) (fun _ => 1) true true)
           [] [fun _ : unit => 1 / 2]).
  reflexivity.
Defined.

End ForcedIdentifiabilityShapes.
